(** * iTuneSearchAPI: the catalog fetch-and-upsert service and its endpoint

    A shallow embedding of [services/searchResultService.ts]
    ([searchAndSave]), of the route [GET /search/:searchWord] of
    [backend/src/index.ts] and of the document schema of
    [models/searchResult.ts], with the properties the specification states
    about them. *)

From Stdlib Require Import ZArith Lia Ascii String.
From stdpp Require Import base option list strings gmap pretty.

Set Warnings "-register-all".

Local Open Scope string_scope.
Local Open Scope list_scope.
Local Open Scope Z_scope.

(** ** JavaScript values

    The values the service handles: what [response.json()] can produce
    (null, booleans, numbers, strings, arrays, objects), [undefined] for an
    absent property and [Date] objects.  Numbers are the integral values the
    catalog uses for identifiers and the clock uses for milliseconds; a
    fractional number behaves like any other non-zero number in every
    operation below. *)

Inductive JsVal : Type :=
  | JUndefined
  | JNull
  | JBool (b : bool)
  | JNum (n : Z)
  | JStr (s : string)
  | JDate (ms : Z)
  | JArr (xs : list JsVal)
  | JObj (fields : gmap string JsVal).

(** [ToBoolean]: the test behind [!x] and [x || y]. *)
Definition truthy (v : JsVal) : bool :=
  match v with
  | JUndefined | JNull => false
  | JBool b => b
  | JNum n => negb (n =? 0)%Z
  | JStr s => negb (String.eqb s "")
  | JDate _ | JArr _ | JObj _ => true
  end.

(** [a || b] on two values already computed. *)
Definition js_or (a b : JsVal) : JsVal := if truthy a then a else b.

Definition nullish (v : JsVal) : bool :=
  match v with JUndefined | JNull => true | _ => false end.

(** ** Exceptions and completions *)

Inductive Exn : Type :=
  | TypeError (msg : string)
  | Error (msg : string)
  | SyntaxError (msg : string)
  | StoreError (msg : string).

Inductive Completion (A : Type) : Type :=
  | Normal (a : A)
  | Throw (e : Exn).
Arguments Normal {A} a.
Arguments Throw {A} e.

(** [v.k] for the property names the program reads ([results], [trackId],
    [collectionId], [kind], ...): a [TypeError] on [undefined] and [null], the
    own property of an object, and [undefined] on every other value, none of
    whose prototypes defines one of these names. *)
Definition get_prop (v : JsVal) (k : string) : Completion JsVal :=
  match v with
  | JUndefined => Throw (TypeError ("Cannot read properties of undefined (reading '" +:+ k +:+ "')"))
  | JNull => Throw (TypeError ("Cannot read properties of null (reading '" +:+ k +:+ "')"))
  | JObj fields => Normal (default JUndefined (fields !! k))
  | _ => Normal JUndefined
  end.

(** The characters a string iterator yields, one string each (one per byte:
    exact on ASCII text). *)
Fixpoint chars (s : string) : list JsVal :=
  match s with
  | EmptyString => []
  | String c rest => JStr (String c EmptyString) :: chars rest
  end.

(** What [for (const item of v)] iterates over: the elements of an array, the
    characters of a string, and a [TypeError] for every value that is not
    iterable. *)
Definition iterate (v : JsVal) : Completion (list JsVal) :=
  match v with
  | JArr xs => Normal xs
  | JStr s => Normal (chars s)
  | _ => Throw (TypeError "data.results is not iterable")
  end.

(** ** [encodeURIComponent]

    Strings are sequences of bytes, the UTF-8 encoding of the text: every byte
    outside the unreserved set becomes [%XX] with upper-case hexadecimal
    digits, which is what [encodeURIComponent] produces on well-formed text. *)

Definition uri_unreserved (c : ascii) : bool :=
  let n := Z.of_nat (nat_of_ascii c) in
  ((65 <=? n) && (n <=? 90)) || ((97 <=? n) && (n <=? 122)) || ((48 <=? n) && (n <=? 57))
  || bool_decide (n ∈ [45; 95; 46; 33; 126; 42; 39; 40; 41]).

Definition hex_digit (n : nat) : ascii :=
  ascii_of_nat (if (n <? 10)%nat then 48 + n else 55 + n)%nat.

Definition percent_encode (c : ascii) : string :=
  let n := nat_of_ascii c in
  String "%" (String (hex_digit (n / 16)) (String (hex_digit (n mod 16)) EmptyString)).

Fixpoint encodeURIComponent (s : string) : string :=
  match s with
  | EmptyString => EmptyString
  | String c rest =>
      (if uri_unreserved c then String c EmptyString else percent_encode c)
      +:+ encodeURIComponent rest
  end.

(** ** Computations: state and exceptions

    A computation reads and updates a state and completes normally or
    abruptly; the effects made before a [throw] stay. *)

Definition M (S A : Type) : Type := S -> Completion A * S.

Definition ret {S A} (a : A) : M S A := fun s => (Normal a, s).

Definition throw {S A} (e : Exn) : M S A := fun s => (Throw e, s).

Definition bind {S A B} (m : M S A) (f : A -> M S B) : M S B :=
  fun s =>
    match m s with
    | (Normal a, s') => f a s'
    | (Throw e, s') => (Throw e, s')
    end.

(** [try { m } catch (error) { handler error }] *)
Definition try_catch {S A} (m : M S A) (handler : Exn -> M S A) : M S A :=
  fun s =>
    match m s with
    | (Normal a, s') => (Normal a, s')
    | (Throw e, s') => handler e s'
    end.

(** A completion computed without touching the state. *)
Definition lift {S A} (c : Completion A) : M S A := fun s => (c, s).

Notation "'let*' x ':=' m 'in' k" := (bind m (fun x => k))
  (at level 10, x name, m at level 100, k at level 200).
Notation "m ';;' k" := (bind m (fun _ => k))
  (at level 100, k at level 200, right associativity).

(** [x || y] where the right operand is evaluated only when the left one is
    falsy. *)
Definition orM {S} (x y : M S JsVal) : M S JsVal :=
  let* v := x in if truthy v then ret v else y.
Infix "|||" := orM (at level 50, left associativity).

(** ** The normalized record: the object literal [searchResult] *)

Module SearchResult.
Record t : Type := mk {
  id : JsVal;
  kind : JsVal;
  artistName : JsVal;
  collectionName : JsVal;
  collectionViewUrl : JsVal;
  image : JsVal;
  searchDate : JsVal
}.
End SearchResult.

(** ** The environment of a call *)

(** A [fetch] response: [ok] is the Fetch standard's "status in 200..299";
    [json()] resolves to the parsed body or rejects. *)
Record Response : Type := {
  status : Z;
  json : Completion JsVal
}.

Definition ok (r : Response) : bool := (200 <=? status r) && (status r <=? 299).

(** The catalog ([fetch url] resolves to a response or rejects) and the wall
    clock: [now n] is what the [n]-th reading of the clock returns. *)
Record Env : Type := {
  fetch : string -> Completion Response;
  now : nat -> Z
}.

Section Service.

(** The record store: mongoose's [searchResultModel], an external
    collaborator.  Its state and its [findOneAndUpdate(filter, update,
    { upsert: true, new: true })] are left abstract here; the first value is
    the [id] of the filter. *)
Variable St : Type.
Variable findOneAndUpdate : St -> JsVal -> SearchResult.t -> Completion JsVal * St.

Record World : Type := {
  db : St;
  ticks : nat;
  console : list (string * Exn)
}.

Definition Date_now (env : Env) : M World JsVal :=
  fun w => (Normal (JNum (now env (ticks w))),
            {| db := db w; ticks := S (ticks w); console := console w |}).

Definition new_Date (env : Env) : M World JsVal :=
  fun w => (Normal (JDate (now env (ticks w))),
            {| db := db w; ticks := S (ticks w); console := console w |}).

Definition console_error (label : string) (error : Exn) : M World unit :=
  fun w => (Normal tt,
            {| db := db w; ticks := ticks w; console := console w ++ [(label, error)] |}).

Definition await_fetch (env : Env) (url : string) : M World Response :=
  lift (fetch env url).

Definition await_findOneAndUpdate (filter_id : JsVal) (update : SearchResult.t) : M World JsVal :=
  fun w =>
    let '(c, st) := findOneAndUpdate (db w) filter_id update in
    (c, {| db := st; ticks := ticks w; console := console w |}).

(** Lines 33-41: the document built for one item. *)
Definition make_searchResult (env : Env) (item : JsVal) : M World SearchResult.t :=
  let* id := lift (get_prop item "trackId") ||| lift (get_prop item "collectionId") ||| Date_now env in
  let* kind := lift (get_prop item "kind") in
  let* artistName := lift (get_prop item "artistName") in
  let* collectionName := lift (get_prop item "collectionName") ||| lift (get_prop item "trackName")
                    ||| ret (JStr "") in
  let* collectionViewUrl := lift (get_prop item "collectionViewUrl")
                       ||| lift (get_prop item "trackViewUrl") ||| ret (JStr "") in
  let* image := lift (get_prop item "artworkUrl600") ||| lift (get_prop item "artworkUrl100") in
  let* searchDate := new_Date env in
  ret (SearchResult.mk id kind artistName collectionName collectionViewUrl image searchDate).

(** Lines 32-50: the body of the inner [try]. *)
Definition save_item (env : Env) (item : JsVal) : M World JsVal :=
  let* searchResult := make_searchResult env item in
  await_findOneAndUpdate (SearchResult.id searchResult) searchResult.

(** Lines 30-54: the loop, with [savedResults] as accumulator. *)
Fixpoint for_of (env : Env) (items : list JsVal) (savedResults : list JsVal)
  : M World (list JsVal) :=
  match items with
  | [] => ret savedResults
  | item :: rest =>
      let* savedResults' :=
        try_catch
          (let* saved := save_item env item in ret (savedResults ++ [saved]))
          (fun error =>
             console_error "Error saving individual result:" error ;; ret savedResults) in
      for_of env rest savedResults'
  end.

Definition search_url (searchWord : string) : string :=
  "https://itunes.apple.com/search?term=" +:+ encodeURIComponent searchWord
  +:+ "&limit=30&country=sa".

Definition searchAndSave (env : Env) (searchWord : string) : M World (list JsVal) :=
  try_catch
    (let url := search_url searchWord in
     let* response := await_fetch env url in
     if negb (ok response)
     then throw (Error ("iTunes API request failed: " +:+ pretty (status response)))
     else
       let* data := lift (json response) in
       let* results := lift (get_prop data "results") in
       let* items := lift (iterate results) in
       for_of env items [])
    (fun error => console_error "Error in searchAndSave:" error ;; ret []).

(** ** The endpoint [GET /search/:searchWord] *)

Record Request : Type := { params : gmap string string }.

Record HttpResponse : Type := { statusCode : Z; body : JsVal }.

Definition error_body (message : string) : JsVal :=
  JObj (<["success" := JBool false]> {[ "error" := JStr message ]}).

(** The route handler over the service it awaits; [res.json] answers with
    status 200 unless [res.status] was called first. *)
Definition search_route (service : string -> M World (list JsVal)) (req : Request)
  : M World HttpResponse :=
  try_catch
    (match params req !! "searchWord" with
     | None => ret {| statusCode := 400; body := error_body "searchWord parameter is required" |}
     | Some searchWord =>
         if negb (truthy (JStr searchWord))
         then ret {| statusCode := 400; body := error_body "searchWord parameter is required" |}
         else
           let* result := service searchWord in
           ret {| statusCode := 200; body := JArr result |}
     end)
    (fun error =>
       console_error "Search endpoint error:" error ;;
       ret {| statusCode := 500; body := error_body "Internal server error" |}).

Definition get_search (env : Env) : Request -> M World HttpResponse :=
  search_route (searchAndSave env).

(** ** The run of the loop, iteration by iteration

    Not code of the service: the bookkeeping its properties are stated
    with.  [attempt] is what the inner [try] of one iteration completes
    with, [after_item] the world one whole iteration (its [catch] included)
    leaves, [attempts] the outcomes of all iterations in order. *)

Definition attempt (env : Env) (item : JsVal) (w : World) : Completion JsVal :=
  fst (save_item env item w).

Definition after_item (env : Env) (item : JsVal) (w : World) : World :=
  snd (for_of env [item] [] w).

Fixpoint attempts (env : Env) (items : list JsVal) (w : World) : list (Completion JsVal) :=
  match items with
  | [] => []
  | item :: rest => attempt env item w :: attempts env rest (after_item env item w)
  end.

Fixpoint after_items (env : Env) (items : list JsVal) (w : World) : World :=
  match items with
  | [] => w
  | item :: rest => after_items env rest (after_item env item w)
  end.

(** The iteration built its document and the store then rejected the
    upsert. *)
Definition upsert_fails (env : Env) (item : JsVal) (w : World) : bool :=
  match make_searchResult env item w with
  | (Normal r, w1) =>
      match fst (findOneAndUpdate (db w1) (SearchResult.id r) r) with
      | Throw _ => true
      | Normal _ => false
      end
  | (Throw _, _) => false
  end.

Fixpoint upsert_failures (env : Env) (items : list JsVal) (w : World) : nat :=
  match items with
  | [] => 0%nat
  | item :: rest =>
      ((if upsert_fails env item w then 1 else 0)
       + upsert_failures env rest (after_item env item w))%nat
  end.

(** The parsed body the loop of a call gets to iterate over. *)
Definition catalog_items (env : Env) (searchWord : string) : option (list JsVal) :=
  match fetch env (search_url searchWord) with
  | Normal response =>
      if ok response then
        match json response with
        | Normal data =>
            match get_prop data "results" with
            | Normal (JArr items) => Some items
            | _ => None
            end
        | Throw _ => None
        end
      else None
  | Throw _ => None
  end.

End Service.

Arguments db {St} _.
Arguments ticks {St} _.
Arguments console {St} _.
Arguments Build_World {St} _ _ _.

(** The documents that completed normally, in order. *)
Fixpoint successes {A} (cs : list (Completion A)) : list A :=
  match cs with
  | [] => []
  | Normal a :: rest => a :: successes rest
  | Throw _ :: rest => successes rest
  end.

Definition is_throw {A} (c : Completion A) : bool :=
  match c with Throw _ => true | Normal _ => false end.

Definition failures {A} (cs : list (Completion A)) : nat :=
  length (List.filter is_throw cs).

(** What the catalog sends back for [results]: present and an array, or
    something [for ... of] can walk at all. *)
Definition has_results_array (data : JsVal) : bool :=
  match get_prop data "results" with
  | Normal (JArr _) => true
  | _ => false
  end.

Definition has_iterable_results (data : JsVal) : bool :=
  match get_prop data "results" with
  | Normal (JArr _) | Normal (JStr _) => true
  | _ => false
  end.

(** The value of a property of an item, [undefined] when the item has none. *)
Definition field (item : JsVal) (k : string) : JsVal :=
  match get_prop item k with
  | Normal v => v
  | Throw _ => JUndefined
  end.

(** The item carries an identifier of its own: [trackId] or [collectionId]
    is truthy, so the clock is not asked for one. *)
Definition has_catalog_id (item : JsVal) : bool :=
  truthy (field item "trackId") || truthy (field item "collectionId").

(** The document of an item that is not [null] or [undefined], and the
    clock readings it costs: one for [searchDate], one more when the id is
    taken from the clock. *)
Definition normalized (env : Env) (item : JsVal) (n : nat) : SearchResult.t :=
  {| SearchResult.id :=
       if has_catalog_id item
       then js_or (field item "trackId") (field item "collectionId")
       else JNum (now env n);
     SearchResult.kind := field item "kind";
     SearchResult.artistName := field item "artistName";
     SearchResult.collectionName :=
       js_or (js_or (field item "collectionName") (field item "trackName")) (JStr "");
     SearchResult.collectionViewUrl :=
       js_or (js_or (field item "collectionViewUrl") (field item "trackViewUrl")) (JStr "");
     SearchResult.image := js_or (field item "artworkUrl600") (field item "artworkUrl100");
     SearchResult.searchDate :=
       JDate (now env (if has_catalog_id item then n else S n)) |}.

Definition clock_reads (item : JsVal) : nat := if has_catalog_id item then 1 else 2.

(** ** The record store

    In the repository the store is mongoose's [findOneAndUpdate] on MongoDB,
    which is not part of the sources; what follows is the Record Store Adapter
    of section 4.1 of the specification, with the schema of
    [models/searchResult.ts]. *)

(** Modelled from the spec: the persisted [SearchRecord] of section 3, with
    the field types of the schema ([id] a number). *)
Module StoredRecord.
Record t : Type := mk {
  id : Z;
  kind : JsVal;
  artistName : JsVal;
  collectionName : JsVal;
  collectionViewUrl : JsVal;
  image : JsVal;
  searchDate : JsVal
}.
End StoredRecord.

(** Modelled from the spec: the state of the record store, absent from the
    sources.  One collection of records keyed by [id], kept in insertion
    order; [faults] says for each coming write whether the store is
    unavailable for it ([StoreUnavailable]). *)
Record MemStore : Type := {
  docs : list StoredRecord.t;
  faults : list bool
}.

(** Modelled from the spec: the stored representation of a record written
    under key [k].  From the schema: [image] is optional with default the
    empty string. *)
Definition stored_of (k : Z) (r : SearchResult.t) : StoredRecord.t :=
  StoredRecord.mk k
    (SearchResult.kind r) (SearchResult.artistName r)
    (SearchResult.collectionName r) (SearchResult.collectionViewUrl r)
    (match SearchResult.image r with JUndefined => JStr "" | v => v end)
    (SearchResult.searchDate r).

Definition has_id (k : Z) (ds : list StoredRecord.t) : bool :=
  existsb (fun d => StoredRecord.id d =? k) ds.

Fixpoint replace_doc (k : Z) (d : StoredRecord.t) (ds : list StoredRecord.t)
  : list StoredRecord.t :=
  match ds with
  | [] => []
  | x :: rest => if StoredRecord.id x =? k then d :: rest else x :: replace_doc k d rest
  end.

(** Modelled from the spec: insert-or-replace by key, "inserts it if no
    record with that id exists, or replaces all fields of the existing record
    with the new values if one does". *)
Definition upsert (k : Z) (d : StoredRecord.t) (ds : list StoredRecord.t)
  : list StoredRecord.t :=
  if has_id k ds then replace_doc k d ds else ds ++ [d].

(** The document handed back for a stored record. *)
Definition to_document (d : StoredRecord.t) : JsVal :=
  JObj (list_to_map
          [("id", JNum (StoredRecord.id d));
           ("kind", StoredRecord.kind d);
           ("artistName", StoredRecord.artistName d);
           ("collectionName", StoredRecord.collectionName d);
           ("collectionViewUrl", StoredRecord.collectionViewUrl d);
           ("image", StoredRecord.image d);
           ("searchDate", StoredRecord.searchDate d)]).

(** Modelled from the spec: [findOneAndUpdate({ id }, update, { upsert: true,
    new: true })] of the record store, absent from the sources: the upsert of
    section 4.1, which returns the resulting stored representation or fails
    with [StoreUnavailable] or [StoreWriteError].  From the schema: [id] is a
    [Number], a write under any other key is refused. *)
Definition mem_findOneAndUpdate (s : MemStore) (filter_id : JsVal) (update : SearchResult.t)
  : Completion JsVal * MemStore :=
  match faults s with
  | true :: later =>
      (Throw (StoreError "StoreUnavailable"), {| docs := docs s; faults := later |})
  | _ =>
      match filter_id with
      | JNum k =>
          let d := stored_of k update in
          (Normal (to_document d), {| docs := upsert k d (docs s); faults := tail (faults s) |})
      | _ =>
          (Throw (StoreError "StoreWriteError: id is not a number"),
           {| docs := docs s; faults := tail (faults s) |})
      end
  end.

Definition ids (s : MemStore) : list Z := map StoredRecord.id (docs s).

(** The documents stored under one id. *)
Definition stored_under (k : Z) (s : MemStore) : list StoredRecord.t :=
  filter (fun d => StoredRecord.id d = k) (docs s).

(** A sequence of calls of the service, each against its own catalog. *)
Fixpoint run_calls (calls : list (Env * string)) (w : World MemStore) : World MemStore :=
  match calls with
  | [] => w
  | (env, searchWord) :: later =>
      run_calls later (snd (searchAndSave MemStore mem_findOneAndUpdate env searchWord w))
  end.

(** The identifier the catalog gave the item. *)
Definition catalog_id (item : JsVal) : JsVal :=
  js_or (field item "trackId") (field item "collectionId").

(** Two returned documents describe the same catalog entity: they agree on
    every field but [searchDate]. *)
Definition same_entity (a b : JsVal) : Prop :=
  Forall (fun k => field a k = field b k)
    ["id"; "kind"; "artistName"; "collectionName"; "collectionViewUrl"; "image"].

(** The [searchDate] of [b] is a later reading of the clock than that of [a]. *)
Definition written_later (env : Env) (a b : JsVal) : Prop :=
  exists i j : nat,
    (i < j)%nat /\ field a "searchDate" = JDate (now env i)
    /\ field b "searchDate" = JDate (now env j).

(** The outcomes of one item in two calls: when both calls saved it, the two
    documents are the same entity, the second written later. *)
Definition agree_when_saved (env : Env) (a b : Completion JsVal) : Prop :=
  match a, b with
  | Normal x, Normal y => same_entity x y /\ written_later env x y
  | _, _ => True
  end.

(** ** Concrete catalogs, clocks and stores *)

Definition wall_clock (n : nat) : Z := 1700000000000 + Z.of_nat n.

(** A catalog that answers every query with the given status and body. *)
Definition answering (st : Z) (data : Completion JsVal) : Env :=
  {| fetch := fun _ => Normal {| status := st; json := data |}; now := wall_clock |}.

(** A catalog that answers 200 with [{ results: results }]. *)
Definition catalog_of (results : JsVal) : Env :=
  answering 200 (Normal (JObj {[ "results" := results ]})).

Definition store_with (ds : list StoredRecord.t) (fs : list bool) : World MemStore :=
  {| db := {| docs := ds; faults := fs |}; ticks := 0; console := [] |}.

Definition empty_world : World MemStore := store_with [] [].

Definition obj (fields : list (string * JsVal)) : JsVal := JObj (list_to_map fields).

(** The item of the specification's endpoint scenario. *)
Definition podcast : JsVal :=
  obj [("trackId", JNum 1); ("kind", JStr "podcast"); ("artistName", JStr "A");
       ("collectionName", JStr "B"); ("collectionViewUrl", JStr "http://x");
       ("artworkUrl600", JStr "http://img")].

(** An item known by its collection only. *)
Definition song : JsVal :=
  obj [("collectionId", JNum 7); ("kind", JStr "song"); ("artistName", JStr "C");
       ("trackName", JStr "T"); ("trackViewUrl", JStr "http://t");
       ("artworkUrl100", JStr "http://small")].

(** An item with no identifier, no name, no link and no artwork. *)
Definition bare : JsVal := obj [("kind", JStr "song"); ("artistName", JStr "D")].

(** The request [GET /search/<word>]. *)
Definition search_request (word : string) : Request :=
  {| params := {[ "searchWord" := word ]} |}.

Arguments Date_now {St} env _.
Arguments new_Date {St} env _.
Arguments console_error {St} label error _.
Arguments await_fetch {St} env url _.
Arguments await_findOneAndUpdate {St} findOneAndUpdate filter_id update _.
Arguments make_searchResult {St} env item _.
Arguments save_item {St} findOneAndUpdate env item _.
Arguments for_of {St} findOneAndUpdate env items savedResults _.
Arguments searchAndSave {St} findOneAndUpdate env searchWord _.
Arguments search_route {St} service req _.
Arguments get_search {St} findOneAndUpdate env req _.
Arguments attempt {St} findOneAndUpdate env item w.
Arguments after_item {St} findOneAndUpdate env item w.
Arguments attempts {St} findOneAndUpdate env items w.
Arguments after_items {St} findOneAndUpdate env items w.
Arguments upsert_fails {St} findOneAndUpdate env item w.
Arguments upsert_failures {St} findOneAndUpdate env items w.

(** ** The search page: [pages/search.tsx]

    The page that calls the endpoint.  Its React state, the part of the
    browser its handlers act on, and [searchAPI], [handleSearchTermChange] and
    the conditions under which each part of the page is rendered. *)

(** A value a promise of the page rejects with: an [Error] (or
    [DOMException]) with its [name], or anything else. *)
Inductive Thrown : Type :=
  | ThrownError (name message : string)
  | ThrownValue (v : JsVal).

Inductive Settled (A : Type) : Type :=
  | Resolved (a : A)
  | Rejected (error : Thrown).
Arguments Resolved {A} a.
Arguments Rejected {A} error.

(** [error instanceof Error && error.name === 'AbortError'] *)
Definition is_abort (error : Thrown) : bool :=
  match error with
  | ThrownError name _ => String.eqb name "AbortError"
  | ThrownValue _ => false
  end.

(** What the page's [fetch] gets back from the backend. *)
Record Reply : Type := {
  reply_status : Z;
  reply_json : Settled JsVal
}.

Definition reply_ok (r : Reply) : bool := (200 <=? reply_status r) && (reply_status r <=? 299).

(** One request as the page lives it: what [fetch] settles with, and whether
    the request's controller had been aborted by the time each of the two
    checks of [controller.signal.aborted] runs. *)
Record Exchange : Type := {
  fetched : Settled Reply;
  aborted_after_fetch : bool;
  aborted_after_json : bool
}.

Inductive LogLine : Type :=
  | Log (label : string) (payload : JsVal)
  | LogError (label : string) (error : Thrown).

Inductive HistoryCall : Type :=
  | replaceState (url : string)
  | pushState (url : string).

Module Page.
(** The [useState] cells the handlers write, and the browser around them:
    the controllers created so far and those aborted, the requests sent, the
    calls made on [window.history], the console. *)
Record t : Type := mk {
  searchTerm : string;
  results : JsVal;
  loading : bool;
  hasSearched : bool;
  abortController : option nat;
  controllers : nat;
  aborted : list nat;
  requests : list string;
  history : list HistoryCall;
  log : list LogLine
}.

Definition setSearchTerm (v : string) (p : t) : t :=
  mk v (results p) (loading p) (hasSearched p) (abortController p)
     (controllers p) (aborted p) (requests p) (history p) (log p).

Definition setResults (v : JsVal) (p : t) : t :=
  mk (searchTerm p) v (loading p) (hasSearched p) (abortController p)
     (controllers p) (aborted p) (requests p) (history p) (log p).

Definition setLoading (v : bool) (p : t) : t :=
  mk (searchTerm p) (results p) v (hasSearched p) (abortController p)
     (controllers p) (aborted p) (requests p) (history p) (log p).

Definition setHasSearched (v : bool) (p : t) : t :=
  mk (searchTerm p) (results p) (loading p) v (abortController p)
     (controllers p) (aborted p) (requests p) (history p) (log p).

Definition setAbortController (v : option nat) (p : t) : t :=
  mk (searchTerm p) (results p) (loading p) (hasSearched p) v
     (controllers p) (aborted p) (requests p) (history p) (log p).

(** [new AbortController()]: the controllers are numbered as they are made. *)
Definition newAbortController (p : t) : nat * t :=
  (controllers p,
   mk (searchTerm p) (results p) (loading p) (hasSearched p) (abortController p)
      (S (controllers p)) (aborted p) (requests p) (history p) (log p)).

Definition abort (controller : nat) (p : t) : t :=
  mk (searchTerm p) (results p) (loading p) (hasSearched p) (abortController p)
     (controllers p) (aborted p ++ [controller]) (requests p) (history p) (log p).

Definition send (url : string) (p : t) : t :=
  mk (searchTerm p) (results p) (loading p) (hasSearched p) (abortController p)
     (controllers p) (aborted p) (requests p ++ [url]) (history p) (log p).

Definition call_history (c : HistoryCall) (p : t) : t :=
  mk (searchTerm p) (results p) (loading p) (hasSearched p) (abortController p)
     (controllers p) (aborted p) (requests p) (history p ++ [c]) (log p).

Definition write (line : LogLine) (p : t) : t :=
  mk (searchTerm p) (results p) (loading p) (hasSearched p) (abortController p)
     (controllers p) (aborted p) (requests p) (history p) (log p ++ [line]).
End Page.

Definition request_url (term : string) : string :=
  "http://localhost:3008/search/" +:+ encodeURIComponent term.

Section SearchPage.

(** [String.prototype.trim], and what the backend and the network make of a
    request; [origin] and [pathname] are those of [window.location]. *)
Variable trim : string -> string.
Variable network : string -> Exchange.
Variable origin pathname : string.

(** The [catch] of [searchAPI] (lines 124-131). *)
Definition searchAPI_catch (error : Thrown) (p : Page.t) : Page.t :=
  if is_abort error then p
  else
    Page.setLoading false
      (Page.setResults (JArr []) (Page.write (LogError "Search failed:" error) p)).

(** [searchAPI] (lines 92-132), run until its promise settles. *)
Definition searchAPI (term : string) (p : Page.t) : Page.t :=
  if negb (truthy (JStr (trim term))) then p
  else
    let '(controller, p) := Page.newAbortController p in
    let p := Page.setAbortController (Some controller) p in
    let p := Page.setLoading true p in
    let p := Page.write (Log "Searching for:" (JStr term)) p in
    let url := request_url term in
    let p := Page.send url p in
    match fetched (network url) with
    | Rejected error => searchAPI_catch error p
    | Resolved response =>
        let p := Page.write (Log "Response status:" (JNum (reply_status response))) p in
        if aborted_after_fetch (network url) then p
        else if negb (reply_ok response)
        then searchAPI_catch
               (ThrownError "Error" ("HTTP error! status: " +:+ pretty (reply_status response))) p
        else
          match reply_json response with
          | Rejected error => searchAPI_catch error p
          | Resolved data =>
              let p := Page.write (Log "Search results:" data) p in
              if aborted_after_json (network url) then p
              else Page.setLoading false (Page.setHasSearched true (Page.setResults data p))
          end
    end.

(** [handleSearchTermChange] (lines 47-74), the request it starts run until it
    settles. *)
Definition handleSearchTermChange (term : string) (p : Page.t) : Page.t :=
  let p := Page.setSearchTerm term p in
  let p :=
    match Page.abortController p with
    | Some controller => Page.setAbortController None (Page.abort controller p)
    | None => p
    end in
  if negb (truthy (JStr term)) || String.eqb term "" || String.eqb (trim term) ""
  then
    let cleanUrl := origin +:+ pathname in
    let p := Page.call_history (replaceState cleanUrl) p in
    Page.setHasSearched false (Page.setResults (JArr []) (Page.setLoading false p))
  else
    let urlWithQuery := origin +:+ pathname +:+ "?q=" +:+ encodeURIComponent (trim term) in
    let p := Page.call_history (replaceState urlWithQuery) p in
    searchAPI (trim term) p.

End SearchPage.

Section SearchPageNavigation.

(** [String.prototype.trim] and the network as above; [protocol], [host] and
    [pathname] are those of [window.location], and [href_with_q t] is the
    current address with its [q] parameter set to [t], as [new URL(href)],
    [searchParams.set('q', t)] and [toString()] make it. *)
Variable trim : string -> string.
Variable network : string -> Exchange.
Variable protocol host pathname : string.
Variable href_with_q : string -> string.

(** [updateURL] (lines 25-45). *)
Definition updateURL (term : string) (addToHistory : bool) (p : Page.t) : Page.t :=
  if truthy (JStr term) && truthy (JStr (trim term))
  then
    let url := href_with_q (trim term) in
    if addToHistory
    then Page.call_history (pushState url) p
    else Page.call_history (replaceState url) p
  else
    let baseUrl := protocol +:+ "//" +:+ host +:+ pathname in
    if addToHistory
    then Page.call_history (pushState baseUrl) p
    else Page.call_history (replaceState baseUrl) p.

(** [handleSearch] (lines 135-142), on the page state; the request it starts
    is run until it settles. *)
Definition handleSearch (p : Page.t) : Page.t :=
  if truthy (JStr (trim (Page.searchTerm p)))
  then searchAPI trim network (Page.searchTerm p) (updateURL (Page.searchTerm p) true p)
  else p.

(** [handlePopState] (lines 154-166); [q] is what [urlParams.get('q')] gives,
    [None] for [null]. *)
Definition handlePopState (q : option string) (p : Page.t) : Page.t :=
  let query :=
    match q with
    | Some s => if truthy (JStr s) then s else ""
    | None => ""
    end in
  let p := Page.setSearchTerm query p in
  if truthy (JStr (trim query))
  then searchAPI trim network query p
  else Page.setLoading false (Page.setHasSearched false (Page.setResults (JArr []) p)).

End SearchPageNavigation.

(** *** What the page renders *)

(** [results.length], when [results] has one that is a number. *)
Definition js_length (v : JsVal) : option nat :=
  match v with
  | JArr xs => Some (length xs)
  | JStr s => Some (String.length s)
  | _ => None
  end.

Inductive Pane : Type := DefaultMessage | Spinner | ResultList | NoResults.

(** Line 482: [!hasSearched && !loading] *)
Definition shows_default (p : Page.t) : bool :=
  negb (Page.hasSearched p) && negb (Page.loading p).

(** Line 492: [loading] *)
Definition shows_spinner (p : Page.t) : bool := Page.loading p.

(** Line 500: [hasSearched && !loading && results.length > 0] *)
Definition shows_results (p : Page.t) : bool :=
  Page.hasSearched p && negb (Page.loading p)
  && match js_length (Page.results p) with Some n => (0 <? n)%nat | None => false end.

(** Line 751: [hasSearched && !loading && results.length === 0] *)
Definition shows_no_results (p : Page.t) : bool :=
  Page.hasSearched p && negb (Page.loading p)
  && match js_length (Page.results p) with Some n => (n =? 0)%nat | None => false end.

(** The panes on the page, in document order. *)
Definition panes (p : Page.t) : list Pane :=
  (if shows_default p then [DefaultMessage] else [])
  ++ (if shows_spinner p then [Spinner] else [])
  ++ (if shows_results p then [ResultList] else [])
  ++ (if shows_no_results p then [NoResults] else []).

(** [v === s] for a string literal [s]. *)
Definition strict_eq_string (v : JsVal) (s : string) : bool :=
  match v with
  | JStr t => String.eqb t s
  | _ => false
  end.

(** [xs.filter(keep)] for a callback that may throw. *)
Fixpoint js_filter (keep : JsVal -> Completion bool) (xs : list JsVal)
  : Completion (list JsVal) :=
  match xs with
  | [] => Normal []
  | x :: rest =>
      match keep x with
      | Throw e => Throw e
      | Normal b =>
          match js_filter keep rest with
          | Throw e => Throw e
          | Normal kept => Normal (if b then x :: kept else kept)
          end
      end
  end.

(** [result => result.kind === 'podcast'] and [result => result.kind !== 'podcast'] *)
Definition is_podcast (result : JsVal) : Completion bool :=
  match get_prop result "kind" with
  | Normal kind => Normal (strict_eq_string kind "podcast")
  | Throw e => Throw e
  end.

Definition is_not_podcast (result : JsVal) : Completion bool :=
  match get_prop result "kind" with
  | Normal kind => Normal (negb (strict_eq_string kind "podcast"))
  | Throw e => Throw e
  end.

(** Lines 508-509: [podcasts] and [otherResults]. *)
Definition podcasts (results : list JsVal) : Completion (list JsVal) :=
  js_filter is_podcast results.

Definition otherResults (results : list JsVal) : Completion (list JsVal) :=
  js_filter is_not_podcast results.

(** The page as it is first rendered, in a browser that has done nothing. *)
Definition fresh_page : Page.t :=
  Page.mk "" (JArr []) false false None 0 [] [] [] [].

(** What the page's [fetch] makes of an answer of the endpoint: its status,
    and its body as [response.json()] parses it back. *)
Definition reply_of (r : HttpResponse) : Reply :=
  {| reply_status := statusCode r; reply_json := Resolved (body r) |}.

(** A request that settles with the given reply and is never aborted. *)
Definition answered (r : Reply) : Exchange :=
  {| fetched := Resolved r; aborted_after_fetch := false; aborted_after_json := false |}.

(** A [trim] for ASCII text: spaces, tabs and line ends off both ends. *)
Definition ascii_space (c : ascii) : bool :=
  bool_decide (nat_of_ascii c ∈ [9; 10; 11; 12; 13; 32]%nat).

Fixpoint trim_start (s : string) : string :=
  match s with
  | EmptyString => EmptyString
  | String c rest => if ascii_space c then trim_start rest else s
  end.

Fixpoint trim_end (s : string) : string :=
  match s with
  | EmptyString => EmptyString
  | String c rest =>
      match trim_end rest with
      | EmptyString => if ascii_space c then EmptyString else String c EmptyString
      | kept => String c kept
      end
  end.

Definition ascii_trim (s : string) : string := trim_end (trim_start s).

(** ** Bookkeeping for the properties of the URL and of a whole call *)

(** What the loop of a call iterates over, when the call gets that far: the
    elements of [data.results], array or string. *)
Definition iterated_items (env : Env) (searchWord : string) : option (list JsVal) :=
  match fetch env (search_url searchWord) with
  | Normal response =>
      if ok response then
        match json response with
        | Normal data =>
            match get_prop data "results" with
            | Normal results =>
                match iterate results with
                | Normal items => Some items
                | Throw _ => None
                end
            | Throw _ => None
            end
        | Throw _ => None
        end
      else None
  | Throw _ => None
  end.

Fixpoint all_chars (good : ascii -> bool) (s : string) : bool :=
  match s with
  | EmptyString => true
  | String c rest => good c && all_chars good rest
  end.

(** The characters that structure a URL: [& = ? # / +] and the space. *)
Definition url_delimiter (c : ascii) : bool :=
  bool_decide (nat_of_ascii c ∈ [38; 61; 63; 35; 47; 43; 32]%nat).

Definition hex_value (c : ascii) : option nat :=
  let n := nat_of_ascii c in
  if ((48 <=? n) && (n <=? 57))%nat then Some (n - 48)%nat
  else if ((65 <=? n) && (n <=? 70))%nat then Some (n - 55)%nat
  else None.

(** Percent-decoding, the inverse the receiver of a URL applies. *)
Fixpoint percent_decode (s : string) : option string :=
  match s with
  | EmptyString => Some EmptyString
  | String c rest =>
      if Ascii.eqb c "%" then
        match rest with
        | String h (String l rest') =>
            match hex_value h, hex_value l, percent_decode rest' with
            | Some a, Some b, Some decoded => Some (String (ascii_of_nat (16 * a + b)) decoded)
            | _, _, _ => None
            end
        | _ => None
        end
      else
        match percent_decode rest with
        | Some decoded => Some (String c decoded)
        | None => None
        end
  end.

(** The console line an iteration of the loop leaves. *)
Definition iteration_log (c : Completion JsVal) : list (string * Exn) :=
  match c with
  | Throw e => [("Error saving individual result:", e)]
  | Normal _ => []
  end.

(** How many times a character occurs in a string. *)
Fixpoint occurrences (c : ascii) (s : string) : nat :=
  match s with
  | EmptyString => 0%nat
  | String c' rest => ((if Ascii.eqb c' c then 1 else 0) + occurrences c rest)%nat
  end.

(** The request was cancelled: [fetch] or [json()] rejected with an
    [AbortError], or the controller was found aborted at one of the two
    checks. *)
Definition exchange_aborted (x : Exchange) : bool :=
  match fetched x with
  | Rejected error => is_abort error
  | Resolved response =>
      aborted_after_fetch x
      || (reply_ok response
          && match reply_json response with
             | Rejected error => is_abort error
             | Resolved _ => aborted_after_json x
             end)
  end.

(** The request failed, not by cancellation: a rejection that is no
    [AbortError], or a status outside 200..299. *)
Definition exchange_failed (x : Exchange) : bool :=
  match fetched x with
  | Rejected error => negb (is_abort error)
  | Resolved response =>
      negb (aborted_after_fetch x)
      && (negb (reply_ok response)
          || match reply_json response with
             | Rejected error => negb (is_abort error)
             | Resolved _ => false
             end)
  end.

(** A network on which every request goes the same way. *)
Definition network_of (x : Exchange) : string -> Exchange := fun _ => x.

(** A page on which a search has been made and shown. *)
Definition shown_page : Page.t :=
  Page.mk "jazz" (JArr [podcast; song]) false true (Some 0%nat) 1 [] [request_url "jazz"] [] [].

(** * Properties *)

(** ** Reading an item *)

Lemma get_prop_field item k :
  nullish item = false -> get_prop item k = Normal (field item k).
Proof. unfold field. destruct item; simpl; intros; congruence. Qed.

Lemma get_prop_nullish item k :
  nullish item = true -> exists e, get_prop item k = Throw e.
Proof. destruct item; simpl; intros; try discriminate; eauto. Qed.

Section ServiceFacts.

Context {St : Type}.
Variable findOneAndUpdate : St -> JsVal -> SearchResult.t -> Completion JsVal * St.

Lemma make_searchResult_eq env item (w : World St) :
  nullish item = false ->
  make_searchResult env item w =
    (Normal (normalized env item (ticks w)),
     {| db := db w; ticks := ticks w + clock_reads item; console := console w |}).
Proof.
  intros Hn. unfold make_searchResult, normalized, clock_reads, has_catalog_id, orM, bind, lift, ret.
  rewrite !(get_prop_field item _ Hn).
  unfold js_or, Date_now, new_Date. simpl.
  repeat (match goal with |- context [truthy ?x] => destruct (truthy x) eqn:? end;
          simpl; try congruence);
    repeat f_equal; lia.
Qed.

Lemma make_searchResult_nullish env item (w : World St) :
  nullish item = true ->
  exists e, make_searchResult env item w = (Throw e, w).
Proof.
  intros Hn. destruct (get_prop_nullish item "trackId" Hn) as [e He].
  exists e. unfold make_searchResult, orM, bind, lift. rewrite He. reflexivity.
Qed.

(** One iteration on an item that is not [null]: the outcome is the store's
    answer to the upsert of the item's document, and the iteration leaves
    the store's new state, the clock advanced, and one more line on the
    console when the store threw. *)
Lemma iteration_eq env item (w : World St) :
  nullish item = false ->
  let r := normalized env item (ticks w) in
  let c := fst (findOneAndUpdate (db w) (SearchResult.id r) r) in
  attempt findOneAndUpdate env item w = c /\
  after_item findOneAndUpdate env item w =
    {| db := snd (findOneAndUpdate (db w) (SearchResult.id r) r);
       ticks := ticks w + clock_reads item;
       console :=
         console w ++
         match c with
         | Throw e => [("Error saving individual result:", e)]
         | Normal _ => []
         end |}.
Proof.
  intros Hn. unfold attempt, after_item. cbn [for_of].
  unfold try_catch, bind, ret, console_error, save_item, bind, await_findOneAndUpdate.
  rewrite (make_searchResult_eq env item w Hn). simpl.
  destruct (findOneAndUpdate _ _ _) as [[doc | e] st]; simpl;
    by rewrite ?app_nil_r.
Qed.

Lemma iteration_nullish env item (w : World St) :
  nullish item = true ->
  exists e,
    attempt findOneAndUpdate env item w = Throw e /\
    after_item findOneAndUpdate env item w =
      {| db := db w; ticks := ticks w;
         console := console w ++ [("Error saving individual result:", e)] |}.
Proof.
  intros Hn. destruct (make_searchResult_nullish env item w Hn) as [e He].
  exists e. unfold attempt, after_item. cbn [for_of].
  unfold try_catch, bind, ret, console_error, save_item, bind. rewrite He. simpl. auto.
Qed.

(** *** The loop *)

Lemma for_of_cons env item rest saved (w : World St) :
  for_of findOneAndUpdate env (item :: rest) saved w =
    for_of findOneAndUpdate env rest
      (saved ++ successes [attempt findOneAndUpdate env item w])
      (after_item findOneAndUpdate env item w).
Proof.
  unfold after_item, attempt. simpl. unfold bind, try_catch, ret, console_error.
  destruct (save_item findOneAndUpdate env item w) as [[doc | e] w1]; simpl.
  - reflexivity.
  - by rewrite app_nil_r.
Qed.

Lemma for_of_run env items : forall saved (w : World St),
  for_of findOneAndUpdate env items saved w =
    (Normal (saved ++ successes (attempts findOneAndUpdate env items w)),
     after_items findOneAndUpdate env items w).
Proof.
  induction items as [| item rest IH]; intros saved w.
  - simpl. by rewrite app_nil_r.
  - rewrite for_of_cons, IH. simpl.
    destruct (attempt findOneAndUpdate env item w); simpl;
      by rewrite <- ?app_assoc, ?app_nil_r.
Qed.

Lemma attempts_length env items : forall w : World St,
  length (attempts findOneAndUpdate env items w) = length items.
Proof. induction items; intros; simpl; auto. Qed.

Lemma attempts_aligned env items : forall w : World St,
  Forall2 (fun item c => exists wi, c = attempt findOneAndUpdate env item wi)
    items (attempts findOneAndUpdate env items w).
Proof. induction items; intros; simpl; constructor; eauto. Qed.

Lemma successes_failures {A} (cs : list (Completion A)) :
  (length (successes cs) + failures cs = length cs)%nat.
Proof.
  unfold failures. induction cs as [| [a | e] cs IH]; simpl in *; lia.
Qed.

(** For an item that is not [null], nothing but the upsert can fail. *)
Lemma attempt_throws_iff_upsert_fails env item (w : World St) :
  nullish item = false ->
  is_throw (attempt findOneAndUpdate env item w) = upsert_fails findOneAndUpdate env item w.
Proof.
  intros Hn. unfold attempt, upsert_fails, save_item, bind, await_findOneAndUpdate.
  rewrite (make_searchResult_eq env item w Hn). simpl.
  destruct (findOneAndUpdate _ _ _) as [[doc | e] st]; reflexivity.
Qed.

Lemma failures_are_upsert_failures env items : forall w : World St,
  Forall (fun item => nullish item = false) items ->
  failures (attempts findOneAndUpdate env items w) = upsert_failures findOneAndUpdate env items w.
Proof.
  induction items as [| item rest IH]; intros w Hall; [reflexivity |].
  inversion Hall as [| ? ? Hn Hrest]; subst.
  unfold failures in *. simpl.
  rewrite <- (attempt_throws_iff_upsert_fails env item w Hn), <- (IH _ Hrest).
  destruct (attempt findOneAndUpdate env item w); reflexivity.
Qed.

(** *** What a call leaves behind *)

Lemma searchAndSave_world env searchWord (w : World St) :
  (exists items, snd (searchAndSave findOneAndUpdate env searchWord w)
                 = after_items findOneAndUpdate env items w) \/
  (exists e, snd (searchAndSave findOneAndUpdate env searchWord w)
             = {| db := db w; ticks := ticks w;
                  console := console w ++ [("Error in searchAndSave:", e)] |}).
Proof.
  unfold searchAndSave, try_catch, bind, await_fetch, lift, throw, console_error, ret.
  destruct (fetch env (search_url searchWord)) as [response | e]; simpl; eauto.
  destruct (ok response); simpl; eauto.
  destruct (json response) as [data | e]; simpl; eauto.
  destruct (get_prop data "results") as [results | e]; simpl; eauto.
  destruct (iterate results) as [items | e]; simpl; eauto.
  rewrite for_of_run. simpl. eauto.
Qed.

(** A property of the store that every upsert keeps is kept by the loop and
    by the call. *)
Section StoreInvariant.

Variable P : St -> Prop.
Hypothesis upsert_keeps :
  forall st filter_id update, P st -> P (snd (findOneAndUpdate st filter_id update)).

Lemma after_item_keeps env item (w : World St) :
  P (db w) -> P (db (after_item findOneAndUpdate env item w)).
Proof.
  intros HP. destruct (nullish item) eqn:Hn.
  - destruct (iteration_nullish env item w Hn) as (e & _ & ->). exact HP.
  - destruct (iteration_eq env item w Hn) as [_ ->]. simpl. by apply upsert_keeps.
Qed.

Lemma after_items_keeps env items : forall w : World St,
  P (db w) -> P (db (after_items findOneAndUpdate env items w)).
Proof.
  induction items as [| item rest IH]; intros w HP; [exact HP |].
  simpl. apply IH. by apply after_item_keeps.
Qed.

Lemma searchAndSave_keeps env searchWord (w : World St) :
  P (db w) -> P (db (snd (searchAndSave findOneAndUpdate env searchWord w))).
Proof.
  intros HP.
  destruct (searchAndSave_world env searchWord w) as [[items ->] | [e ->]].
  - by apply after_items_keeps.
  - exact HP.
Qed.

End StoreInvariant.

(** *** The call *)

Lemma searchAndSave_on_items env searchWord items (w : World St) :
  catalog_items env searchWord = Some items ->
  searchAndSave findOneAndUpdate env searchWord w = for_of findOneAndUpdate env items [] w.
Proof.
  unfold catalog_items, searchAndSave, try_catch, bind, await_fetch, lift. simpl.
  destruct (fetch env (search_url searchWord)) as [response | e]; [| discriminate].
  destruct (ok response); [| discriminate]. simpl.
  destruct (json response) as [data | e]; [| discriminate].
  destruct (get_prop data "results") as [[] | e]; try discriminate.
  intros [= ->]. simpl. by rewrite for_of_run.
Qed.

(** No exception escapes [searchAndSave]: it returns a list, whatever the
    catalog, the clock and the store do. *)
Lemma searchAndSave_returns env searchWord (w : World St) :
  exists saved, fst (searchAndSave findOneAndUpdate env searchWord w) = Normal saved.
Proof.
  unfold searchAndSave, try_catch, bind, await_fetch, lift, throw, console_error, ret.
  destruct (fetch env (search_url searchWord)) as [response | e]; simpl; eauto.
  destruct (ok response); simpl; eauto.
  destruct (json response) as [data | e]; simpl; eauto.
  destruct (get_prop data "results") as [results | e]; simpl; eauto.
  destruct (iterate results) as [items | e]; simpl; eauto.
  rewrite for_of_run. simpl. eauto.
Qed.

(** C1 (as amended): when the catalog answers with a status outside
    200..299, or with a body whose [results] cannot be iterated at all (the
    body is [null], or [results] is absent, [null], a boolean, a number or an
    object), [searchAndSave] returns the empty list and throws nothing. *)
Theorem searchAndSave_absorbs_upstream_failure env searchWord (w : World St) response :
  fetch env (search_url searchWord) = Normal response ->
  ok response = false \/
    (exists data, json response = Normal data /\ has_iterable_results data = false) ->
  fst (searchAndSave findOneAndUpdate env searchWord w) = Normal [].
Proof.
  intros Hfetch Hbad.
  unfold searchAndSave, try_catch, bind, await_fetch, lift, throw, console_error, ret.
  rewrite Hfetch. simpl.
  destruct Hbad as [Hok | (data & Hjson & Hres)].
  - rewrite Hok. reflexivity.
  - destruct (ok response); [| reflexivity]. simpl. rewrite Hjson.
    unfold has_iterable_results in Hres.
    destruct (get_prop data "results") as [[] | e]; simpl; try reflexivity; discriminate.
Qed.

(** C2: when the catalog returns N items and the store rejects the upsert of
    exactly one of them, [searchAndSave] returns normally with the N-1
    documents of the other items: the failing iteration is logged and the
    loop goes on. *)
Theorem one_failed_upsert_is_skipped env searchWord (w : World St) items :
  catalog_items env searchWord = Some items ->
  Forall (fun item => nullish item = false) items ->
  upsert_failures findOneAndUpdate env items w = 1%nat ->
  exists saved,
    fst (searchAndSave findOneAndUpdate env searchWord w) = Normal saved /\
    length saved = (length items - 1)%nat /\
    saved = successes (attempts findOneAndUpdate env items w) /\
    length (attempts findOneAndUpdate env items w) = length items.
Proof.
  intros Hitems Hall Hone.
  rewrite (searchAndSave_on_items _ _ _ _ Hitems), for_of_run. simpl.
  eexists; split; [reflexivity |].
  pose proof (successes_failures (attempts findOneAndUpdate env items w)) as Hlen.
  rewrite (failures_are_upsert_failures env items w Hall), Hone, attempts_length in Hlen.
  repeat split; [lia | apply attempts_length].
Qed.

(** C3: on a successful catalog response [searchAndSave] returns as many
    documents as the catalog sent items, less those whose upsert failed, and
    they are the saved documents of the items in the catalog's order. *)
Theorem searchAndSave_returns_saved_in_order env searchWord (w : World St) items :
  catalog_items env searchWord = Some items ->
  Forall (fun item => nullish item = false) items ->
  exists saved,
    fst (searchAndSave findOneAndUpdate env searchWord w) = Normal saved /\
    length saved = (length items - upsert_failures findOneAndUpdate env items w)%nat /\
    saved = successes (attempts findOneAndUpdate env items w) /\
    Forall2 (fun item c => exists wi, c = attempt findOneAndUpdate env item wi)
      items (attempts findOneAndUpdate env items w).
Proof.
  intros Hitems Hall.
  rewrite (searchAndSave_on_items _ _ _ _ Hitems), for_of_run. simpl.
  eexists; split; [reflexivity |].
  pose proof (successes_failures (attempts findOneAndUpdate env items w)) as Hlen.
  rewrite (failures_are_upsert_failures env items w Hall), attempts_length in Hlen.
  repeat split; [lia | apply attempts_aligned].
Qed.

(** *** The fallbacks of the normalized record *)

(** C5 (as amended): [collectionName] is the item's [collectionName] when
    that is truthy (present and not the empty string), else its [trackName]
    when that is truthy, else the empty string; [collectionViewUrl] falls
    back to [trackViewUrl] and the empty string the same way. *)
Theorem collectionName_fallback env item (w : World St) :
  nullish item = false ->
  exists r w',
    make_searchResult env item w = (Normal r, w') /\
    SearchResult.collectionName r =
      (if truthy (field item "collectionName") then field item "collectionName"
       else if truthy (field item "trackName") then field item "trackName"
       else JStr "") /\
    SearchResult.collectionViewUrl r =
      (if truthy (field item "collectionViewUrl") then field item "collectionViewUrl"
       else if truthy (field item "trackViewUrl") then field item "trackViewUrl"
       else JStr "").
Proof.
  intros Hn. rewrite (make_searchResult_eq env item w Hn).
  do 2 eexists; split; [reflexivity |]. unfold normalized, js_or; simpl.
  split.
  - destruct (truthy (field item "collectionName")) eqn:E; [by rewrite E | reflexivity].
  - destruct (truthy (field item "collectionViewUrl")) eqn:E; [by rewrite E | reflexivity].
Qed.

(** C6 (as amended): [image] is the item's [artworkUrl600] when that is
    truthy, else whatever its [artworkUrl100] is; with both absent it is
    [undefined], the code has no empty-string fallback for it. *)
Theorem image_fallback env item (w : World St) :
  nullish item = false ->
  exists r w',
    make_searchResult env item w = (Normal r, w') /\
    SearchResult.image r =
      (if truthy (field item "artworkUrl600") then field item "artworkUrl600"
       else field item "artworkUrl100") /\
    (field item "artworkUrl600" = JUndefined -> field item "artworkUrl100" = JUndefined ->
     SearchResult.image r = JUndefined).
Proof.
  intros Hn. rewrite (make_searchResult_eq env item w Hn).
  do 2 eexists; split; [reflexivity |]. unfold normalized, js_or; simpl.
  split; [reflexivity |]. intros -> ->. reflexivity.
Qed.

(** C7 (as amended): [id] is the item's [trackId] when that is truthy
    (present and not 0), else its [collectionId] when that is truthy, else
    the reading of the clock at that moment. *)
Theorem id_fallback env item (w : World St) :
  nullish item = false ->
  exists r w',
    make_searchResult env item w = (Normal r, w') /\
    SearchResult.id r =
      (if truthy (field item "trackId") then field item "trackId"
       else if truthy (field item "collectionId") then field item "collectionId"
       else JNum (now env (ticks w))).
Proof.
  intros Hn. rewrite (make_searchResult_eq env item w Hn).
  do 2 eexists; split; [reflexivity |]. unfold normalized, has_catalog_id, js_or; simpl.
  destruct (truthy (field item "trackId")), (truthy (field item "collectionId")); reflexivity.
Qed.

Lemma field_not_undefined item k : field item k <> JUndefined -> nullish item = false.
Proof. unfold field. destruct item; simpl; intros; congruence. Qed.

(** C10: a [trackId] that is the number 0 is passed over like an absent
    one, the id then comes from [collectionId] or, failing that, from the
    clock; and a [collectionId] that is 0 is passed over for the clock. *)
Theorem zero_id_is_passed_over env item (w : World St) :
  (field item "trackId" = JNum 0 ->
   exists r w',
     make_searchResult env item w = (Normal r, w') /\
     SearchResult.id r =
       (if truthy (field item "collectionId") then field item "collectionId"
        else JNum (now env (ticks w)))) /\
  (truthy (field item "trackId") = false -> field item "collectionId" = JNum 0 ->
   exists r w',
     make_searchResult env item w = (Normal r, w') /\
     SearchResult.id r = JNum (now env (ticks w))).
Proof.
  split.
  - intros Hz.
    assert (Hn : nullish item = false) by (apply (field_not_undefined item "trackId"); congruence).
    rewrite (make_searchResult_eq env item w Hn).
    do 2 eexists; split; [reflexivity |]. unfold normalized, has_catalog_id, js_or; simpl.
    rewrite Hz. simpl. destruct (truthy (field item "collectionId")); reflexivity.
  - intros Ht Hz.
    assert (Hn : nullish item = false) by (apply (field_not_undefined item "collectionId"); congruence).
    rewrite (make_searchResult_eq env item w Hn).
    do 2 eexists; split; [reflexivity |]. unfold normalized, has_catalog_id, js_or; simpl.
    rewrite Ht, Hz. reflexivity.
Qed.

(** *** The endpoint *)

Lemma searchAndSave_not_ok env searchWord (w : World St) response :
  fetch env (search_url searchWord) = Normal response ->
  ok response = false ->
  fst (searchAndSave findOneAndUpdate env searchWord w) = Normal [].
Proof.
  intros Hfetch Hok.
  unfold searchAndSave, try_catch, bind, await_fetch, lift, throw, console_error, ret.
  rewrite Hfetch. simpl. rewrite Hok. reflexivity.
Qed.

(** C4: [GET /search/:searchWord] answers 400 with
    [{success:false, error:"searchWord parameter is required"}] when the
    parameter is missing or empty; 200 with the list the service returned,
    as an array; 500 with [{success:false, error:"Internal server error"}]
    when the service throws; and, with [searchAndSave] as the service, 200
    with the empty array when the catalog answers with a failure status. *)
Theorem get_search_contract (service : string -> M (World St) (list JsVal)) env req
    (w : World St) :
  (params req !! "searchWord" = None \/ params req !! "searchWord" = Some "" ->
   fst (search_route service req w) =
     Normal {| statusCode := 400; body := error_body "searchWord parameter is required" |}) /\
  (forall searchWord result,
     params req !! "searchWord" = Some searchWord -> searchWord <> "" ->
     fst (service searchWord w) = Normal result ->
     fst (search_route service req w) = Normal {| statusCode := 200; body := JArr result |}) /\
  (forall searchWord error,
     params req !! "searchWord" = Some searchWord -> searchWord <> "" ->
     fst (service searchWord w) = Throw error ->
     fst (search_route service req w) =
       Normal {| statusCode := 500; body := error_body "Internal server error" |}) /\
  (forall searchWord response,
     params req !! "searchWord" = Some searchWord -> searchWord <> "" ->
     fetch env (search_url searchWord) = Normal response -> ok response = false ->
     fst (get_search findOneAndUpdate env req w) = Normal {| statusCode := 200; body := JArr [] |}).
Proof.
  assert (Hne : forall s : string, s <> "" -> truthy (JStr s) = true).
  { intros s Hs. simpl. destruct (String.eqb_spec s ""); [contradiction | reflexivity]. }
  unfold get_search, search_route, try_catch, bind, ret, console_error.
  repeat split.
  - intros [-> | ->]; reflexivity.
  - intros searchWord result -> Hs Hsvc. rewrite (Hne _ Hs). simpl.
    destruct (service searchWord w) as [c w1]. simpl in Hsvc. subst c. reflexivity.
  - intros searchWord error -> Hs Hsvc. rewrite (Hne _ Hs). simpl.
    destruct (service searchWord w) as [c w1]. simpl in Hsvc. subst c. reflexivity.
  - intros searchWord response -> Hs Hfetch Hok. rewrite (Hne _ Hs). simpl.
    pose proof (searchAndSave_not_ok env searchWord w response Hfetch Hok) as Hsvc.
    destruct (searchAndSave findOneAndUpdate env searchWord w) as [c w1].
    simpl in Hsvc. subst c. reflexivity.
Qed.

End ServiceFacts.

(** ** The record store *)

Section RecordStore.

Implicit Types (k : Z) (d : StoredRecord.t) (ds : list StoredRecord.t) (s : MemStore).

Lemma has_id_elem k ds : has_id k ds = true <-> k ∈ map StoredRecord.id ds.
Proof.
  unfold has_id. induction ds as [| x rest IH]; simpl.
  - rewrite elem_of_nil. split; [discriminate | tauto].
  - rewrite orb_true_iff, elem_of_cons, Z.eqb_eq, IH. intuition congruence.
Qed.

Lemma has_id_not_elem k ds : has_id k ds = false <-> k ∉ map StoredRecord.id ds.
Proof.
  rewrite <- has_id_elem. destruct (has_id k ds); split; congruence.
Qed.

Lemma replace_doc_ids k d ds :
  StoredRecord.id d = k ->
  map StoredRecord.id (replace_doc k d ds) = map StoredRecord.id ds.
Proof.
  intros Hd. induction ds as [| x rest IH]; simpl; [reflexivity |].
  destruct (StoredRecord.id x =? k) eqn:E; simpl.
  - apply Z.eqb_eq in E. congruence.
  - by rewrite IH.
Qed.

Lemma upsert_ids k d ds :
  StoredRecord.id d = k ->
  map StoredRecord.id (upsert k d ds) =
    if has_id k ds then map StoredRecord.id ds else map StoredRecord.id ds ++ [k].
Proof.
  intros Hd. unfold upsert. destruct (has_id k ds).
  - by apply replace_doc_ids.
  - rewrite map_app. simpl. by rewrite Hd.
Qed.

Lemma upsert_NoDup k d ds :
  StoredRecord.id d = k ->
  NoDup (map StoredRecord.id ds) -> NoDup (map StoredRecord.id (upsert k d ds)).
Proof.
  intros Hd Hnd. rewrite (upsert_ids k d ds Hd).
  destruct (has_id k ds) eqn:E; [exact Hnd |].
  apply has_id_not_elem in E. apply NoDup_app. repeat split.
  - exact Hnd.
  - intros x Hx Hin. apply list_elem_of_singleton in Hin. congruence.
  - apply NoDup_singleton.
Qed.

Lemma upsert_has_id k d ds : StoredRecord.id d = k -> has_id k (upsert k d ds) = true.
Proof.
  intros Hd. apply has_id_elem. rewrite (upsert_ids k d ds Hd).
  destruct (has_id k ds) eqn:E.
  - by apply has_id_elem.
  - apply elem_of_app. right. by apply list_elem_of_singleton.
Qed.

Lemma upsert_keeps_id k k' d ds :
  StoredRecord.id d = k -> has_id k' ds = true -> has_id k' (upsert k d ds) = true.
Proof.
  intros Hd Hk'. apply has_id_elem. rewrite (upsert_ids k d ds Hd).
  apply has_id_elem in Hk'. destruct (has_id k ds); [exact Hk' |].
  apply elem_of_app. by left.
Qed.

Lemma filter_absent k ds :
  k ∉ map StoredRecord.id ds -> filter (fun d => StoredRecord.id d = k) ds = [].
Proof.
  induction ds as [| x rest IH]; simpl; intros Hk; [reflexivity |].
  apply not_elem_of_cons in Hk as [Hx Hrest].
  rewrite filter_cons_False by congruence. by apply IH.
Qed.

(** After an upsert under [k] exactly one document is stored under [k]: the
    one just written. *)
Lemma upsert_stored k d ds :
  StoredRecord.id d = k ->
  NoDup (map StoredRecord.id ds) ->
  filter (fun x => StoredRecord.id x = k) (upsert k d ds) = [d].
Proof.
  intros Hd Hnd. unfold upsert. destruct (has_id k ds) eqn:E.
  - unfold has_id in E. induction ds as [| x rest IH]; simpl in *.
    + discriminate.
    + apply NoDup_cons in Hnd as [Hx Hrest].
      destruct (StoredRecord.id x =? k) eqn:Ex.
      * apply Z.eqb_eq in Ex. rewrite filter_cons_True by exact Hd.
        rewrite filter_absent; [reflexivity | congruence].
      * apply Z.eqb_neq in Ex. rewrite filter_cons_False by exact Ex. by apply IH.
  - apply has_id_not_elem in E. rewrite filter_app, (filter_absent k ds E).
    simpl. by rewrite filter_cons_True.
Qed.

Lemma stored_of_id k r : StoredRecord.id (stored_of k r) = k.
Proof. reflexivity. Qed.

Lemma mem_findOneAndUpdate_NoDup s filter_id update :
  NoDup (ids s) -> NoDup (ids (snd (mem_findOneAndUpdate s filter_id update))).
Proof.
  intros Hnd. unfold mem_findOneAndUpdate, ids in *.
  destruct (faults s) as [| [] later]; destruct filter_id; simpl; try exact Hnd;
    by apply upsert_NoDup.
Qed.

Lemma field_to_document d :
  field (to_document d) "id" = JNum (StoredRecord.id d) /\
  field (to_document d) "kind" = StoredRecord.kind d /\
  field (to_document d) "artistName" = StoredRecord.artistName d /\
  field (to_document d) "collectionName" = StoredRecord.collectionName d /\
  field (to_document d) "collectionViewUrl" = StoredRecord.collectionViewUrl d /\
  field (to_document d) "image" = StoredRecord.image d /\
  field (to_document d) "searchDate" = StoredRecord.searchDate d.
Proof. repeat split; reflexivity. Qed.

End RecordStore.

(** ** The service on the record store *)

Section StoredSearches.

Local Abbreviation save := mem_findOneAndUpdate.

Lemma has_catalog_id_not_nullish item : has_catalog_id item = true -> nullish item = false.
Proof. unfold has_catalog_id, field. destruct item; simpl; congruence. Qed.

Lemma normalized_id env item n :
  has_catalog_id item = true -> SearchResult.id (normalized env item n) = catalog_id item.
Proof. intros H. unfold normalized. simpl. by rewrite H. Qed.

(** One iteration on an item with an identifier of its own, the store being
    available. *)
Lemma stored_iteration env item (w : World MemStore) :
  has_catalog_id item = true ->
  faults (db w) = [] ->
  let r := normalized env item (ticks w) in
  attempt save env item w =
    match catalog_id item with
    | JNum k => Normal (to_document (stored_of k r))
    | _ => Throw (StoreError "StoreWriteError: id is not a number")
    end /\
  ticks (after_item save env item w) = S (ticks w) /\
  faults (db (after_item save env item w)) = [] /\
  docs (db (after_item save env item w)) =
    match catalog_id item with
    | JNum k => upsert k (stored_of k r) (docs (db w))
    | _ => docs (db w)
    end.
Proof.
  intros Hid Hf r.
  pose proof (normalized_id env item (ticks w) Hid) as Hr. fold r in Hr.
  destruct (iteration_eq save env item w (has_catalog_id_not_nullish item Hid)) as [-> ->].
  fold r. rewrite Hr. unfold clock_reads, mem_findOneAndUpdate. rewrite Hid, Hf.
  destruct (catalog_id item); simpl; repeat split; first [reflexivity | lia].
Qed.

(** One iteration on such an item, whatever the store does: the clock is
    read once, and a document that comes back is the item's. *)
Lemma stored_iteration_any env item (w : World MemStore) :
  has_catalog_id item = true ->
  ticks (after_item save env item w) = S (ticks w) /\
  ((exists e, attempt save env item w = Throw e) \/
   (exists k, catalog_id item = JNum k /\
              attempt save env item w
              = Normal (to_document (stored_of k (normalized env item (ticks w)))))).
Proof.
  intros Hid. pose proof (normalized_id env item (ticks w) Hid) as Hr.
  destruct (iteration_eq save env item w (has_catalog_id_not_nullish item Hid)) as [-> ->].
  rewrite Hr. unfold clock_reads, mem_findOneAndUpdate. rewrite Hid.
  split; [simpl; lia |].
  destruct (faults (db w)) as [| [] later]; simpl; eauto;
    destruct (catalog_id item); simpl; eauto.
Qed.

Lemma attempts_agree env items : forall wa wb : World MemStore,
  Forall (fun item => has_catalog_id item = true) items ->
  (ticks wa + length items <= ticks wb)%nat ->
  Forall2 (agree_when_saved env) (attempts save env items wa) (attempts save env items wb).
Proof.
  induction items as [| item rest IH]; intros wa wb Hall Hticks; simpl.
  - constructor.
  - inversion Hall as [| ? ? Hid Hrest]; subst. simpl in Hticks.
    destruct (stored_iteration_any env item wa Hid) as [Hta Ha].
    destruct (stored_iteration_any env item wb Hid) as [Htb Hb].
    constructor; [| apply IH; [exact Hrest | lia]].
    destruct Ha as [[e ->] | (k & Hka & ->)]; [exact I |].
    destruct Hb as [[e ->] | (k' & Hkb & ->)]; [exact I |].
    assert (Hk : k = k') by congruence.
    subst k'. split.
    + unfold same_entity, normalized. rewrite Hid. repeat constructor.
    + exists (ticks wa), (ticks wb). unfold normalized. rewrite Hid.
      repeat split. lia.
Qed.

Lemma after_items_ticks env items : forall w : World MemStore,
  Forall (fun item => has_catalog_id item = true) items ->
  ticks (after_items save env items w) = (ticks w + length items)%nat.
Proof.
  induction items as [| item rest IH]; intros w Hall; simpl; [lia |].
  inversion Hall as [| ? ? Hid Hrest]; subst.
  rewrite (IH _ Hrest), (proj1 (stored_iteration_any env item w Hid)). lia.
Qed.

Lemma stored_attempts_twice env items : forall wa wb : World MemStore,
  Forall (fun item => has_catalog_id item = true) items ->
  faults (db wa) = [] -> faults (db wb) = [] ->
  (ticks wa + length items <= ticks wb)%nat ->
  Forall2 (fun a b => same_entity a b /\ written_later env a b)
    (successes (attempts save env items wa)) (successes (attempts save env items wb)).
Proof.
  induction items as [| item rest IH]; intros wa wb Hall Hfa Hfb Hticks; simpl.
  - constructor.
  - inversion Hall as [| ? ? Hid Hrest]; subst. simpl in Hticks.
    destruct (stored_iteration env item wa Hid Hfa) as (-> & Hta & Hfa' & _).
    destruct (stored_iteration env item wb Hid Hfb) as (-> & Htb & Hfb' & _).
    assert (Htail : Forall2 (fun a b => same_entity a b /\ written_later env a b)
              (successes (attempts save env rest (after_item save env item wa)))
              (successes (attempts save env rest (after_item save env item wb)))).
    { apply IH; auto. lia. }
    destruct (catalog_id item); simpl; try exact Htail.
    constructor; [| exact Htail]. split.
    + unfold same_entity, normalized. rewrite Hid. repeat constructor.
    + exists (ticks wa), (ticks wb). unfold normalized. rewrite Hid.
      repeat split. lia.
Qed.

Lemma stored_after_items_ticks env items : forall w : World MemStore,
  Forall (fun item => has_catalog_id item = true) items ->
  faults (db w) = [] ->
  ticks (after_items save env items w) = (ticks w + length items)%nat /\
  faults (db (after_items save env items w)) = [].
Proof.
  induction items as [| item rest IH]; intros w Hall Hf; simpl.
  - split; [lia | exact Hf].
  - inversion Hall as [| ? ? Hid Hrest]; subst.
    destruct (stored_iteration env item w Hid Hf) as (_ & Ht & Hf' & _).
    destruct (IH _ Hrest Hf') as [-> ->]. split; [lia | reflexivity].
Qed.

(** Every identifier the store accepted during the loop is in the store
    afterwards, and the identifiers that were there stay. *)
Lemma stored_after_items_has_id env items : forall w : World MemStore,
  Forall (fun item => has_catalog_id item = true) items ->
  faults (db w) = [] ->
  (forall k, has_id k (docs (db w)) = true ->
             has_id k (docs (db (after_items save env items w))) = true) /\
  (forall item k, item ∈ items -> catalog_id item = JNum k ->
                  has_id k (docs (db (after_items save env items w))) = true).
Proof.
  induction items as [| item rest IH]; intros w Hall Hf; simpl.
  - split; [auto |]. intros item k Hin. by apply elem_of_nil in Hin.
  - inversion Hall as [| ? ? Hid Hrest]; subst.
    destruct (stored_iteration env item w Hid Hf) as (_ & _ & Hf' & Hdocs).
    destruct (IH _ Hrest Hf') as [Hkeep Hnew]. split.
    + intros k Hk. apply Hkeep. rewrite Hdocs.
      destruct (catalog_id item); try exact Hk. by apply upsert_keeps_id.
    + intros item' k Hin Hkey. apply elem_of_cons in Hin as [-> | Hin].
      * apply Hkeep. rewrite Hdocs, Hkey. by apply upsert_has_id.
      * by apply (Hnew item').
Qed.

(** A loop over items whose identifiers are all stored already adds no
    document. *)
Lemma stored_after_items_ids env items : forall w : World MemStore,
  Forall (fun item => has_catalog_id item = true) items ->
  faults (db w) = [] ->
  (forall item k, item ∈ items -> catalog_id item = JNum k -> has_id k (docs (db w)) = true) ->
  ids (db (after_items save env items w)) = ids (db w).
Proof.
  induction items as [| item rest IH]; intros w Hall Hf Hknown; simpl; [reflexivity |].
  inversion Hall as [| ? ? Hid Hrest]; subst.
  destruct (stored_iteration env item w Hid Hf) as (_ & _ & Hf' & Hdocs).
  assert (Hids : ids (db (after_item save env item w)) = ids (db w)).
  { unfold ids. rewrite Hdocs. destruct (catalog_id item) eqn:Hkey; try reflexivity.
    rewrite upsert_ids by reflexivity.
    rewrite (Hknown item n); [reflexivity | apply elem_of_cons; by left | exact Hkey]. }
  rewrite IH; [exact Hids | exact Hrest | exact Hf' |].
  intros item' k Hin Hkey. apply has_id_elem. fold (ids (db (after_item save env item w))).
  rewrite Hids. apply has_id_elem. apply (Hknown item'); [| exact Hkey].
  apply elem_of_cons. by right.
Qed.

Lemma stored_call_world env searchWord items (w : World MemStore) :
  catalog_items env searchWord = Some items ->
  searchAndSave save env searchWord w =
    (Normal (successes (attempts save env items w)), after_items save env items w).
Proof.
  intros Hitems. by rewrite (searchAndSave_on_items save env searchWord items w Hitems), for_of_run.
Qed.

(** C8 (as amended): when every item of the unchanged catalog response has
    an identifier of its own (a truthy [trackId] or [collectionId]), an item
    that both calls save comes back with the same [id], [kind],
    [artistName], [collectionName], [collectionViewUrl] and [image], the
    [searchDate] of the second call being a later reading of the clock; and
    when the store is available throughout, the two returned lists agree
    record by record in that way and the second call adds no document to
    the store. *)
Theorem repeated_search_overwrites env searchWord items (w : World MemStore) :
  catalog_items env searchWord = Some items ->
  Forall (fun item => has_catalog_id item = true) items ->
  let w1 := snd (searchAndSave save env searchWord w) in
  exists first second,
    fst (searchAndSave save env searchWord w) = Normal first /\
    fst (searchAndSave save env searchWord w1) = Normal second /\
    first = successes (attempts save env items w) /\
    second = successes (attempts save env items w1) /\
    Forall2 (agree_when_saved env) (attempts save env items w) (attempts save env items w1) /\
    (faults (db w) = [] ->
     Forall2 (fun a b => same_entity a b /\ written_later env a b) first second /\
     ids (db (snd (searchAndSave save env searchWord w1))) = ids (db w1)).
Proof.
  intros Hitems Hall w1. subst w1.
  rewrite !(stored_call_world env searchWord items _ Hitems). simpl.
  pose proof (after_items_ticks env items w Hall) as Ht.
  do 2 eexists. split; [reflexivity |]. split; [reflexivity |].
  split; [reflexivity |]. split; [reflexivity |]. split.
  - apply attempts_agree; [exact Hall | lia].
  - intros Hf. destruct (stored_after_items_ticks env items w Hall Hf) as [_ Hf1]. split.
    + apply stored_attempts_twice; auto. lia.
    + apply stored_after_items_ids; auto.
      intros item k Hin Hkey.
      by apply (proj2 (stored_after_items_has_id env items w Hall Hf) item).
Qed.

Lemma run_calls_NoDup calls : forall w : World MemStore,
  NoDup (ids (db w)) -> NoDup (ids (db (run_calls calls w))).
Proof.
  induction calls as [| [env searchWord] later IH]; intros w Hnd; simpl; [exact Hnd |].
  apply IH.
  apply (searchAndSave_keeps save (fun st => NoDup (ids st))); [| exact Hnd].
  intros st filter_id update. apply mem_findOneAndUpdate_NoDup.
Qed.

(** A call whose catalog response is one item with a numeric, non-zero
    [trackId], on an available store: the item's document is upserted under
    that id. *)
Lemma stored_single_item env searchWord item k (w : World MemStore) :
  catalog_items env searchWord = Some [item] ->
  field item "trackId" = JNum k -> k <> 0 ->
  faults (db w) = [] ->
  let w' := snd (searchAndSave save env searchWord w) in
  docs (db w') = upsert k (stored_of k (normalized env item (ticks w))) (docs (db w)) /\
  faults (db w') = [].
Proof.
  intros Hitems Hk Hk0 Hf w'. subst w'.
  rewrite (stored_call_world env searchWord [item] w Hitems). simpl.
  assert (Htruthy : truthy (JNum k) = true) by (simpl; by apply negb_true_iff, Z.eqb_neq).
  assert (Hid : has_catalog_id item = true) by (unfold has_catalog_id; by rewrite Hk, Htruthy).
  assert (Hkey : catalog_id item = JNum k) by (unfold catalog_id, js_or; by rewrite Hk, Htruthy).
  destruct (stored_iteration env item w Hid Hf) as (_ & _ & -> & ->).
  by rewrite Hkey.
Qed.

(** C9: whatever calls are made, the store never holds two documents with
    one id; an accepted upsert under an id leaves exactly one document under
    that id, carrying the values just written, [searchDate] included, and
    adds none when the id was there; and after two calls that each yield an
    item with the same id, the one document under that id is the second
    call's. *)
Theorem store_holds_one_record_per_id :
  (forall calls (w : World MemStore),
     NoDup (ids (db w)) -> NoDup (ids (db (run_calls calls w)))) /\
  (forall s k update doc s',
     NoDup (ids s) ->
     mem_findOneAndUpdate s (JNum k) update = (Normal doc, s') ->
     stored_under k s' = [stored_of k update] /\
     doc = to_document (stored_of k update) /\
     StoredRecord.searchDate (stored_of k update) = SearchResult.searchDate update /\
     (k ∈ ids s -> ids s' = ids s)) /\
  (forall env1 word1 item1 env2 word2 item2 k (w : World MemStore),
     NoDup (ids (db w)) -> faults (db w) = [] ->
     catalog_items env1 word1 = Some [item1] ->
     catalog_items env2 word2 = Some [item2] ->
     field item1 "trackId" = JNum k -> field item2 "trackId" = JNum k -> k <> 0 ->
     exists d t,
       stored_under k (db (run_calls [(env1, word1); (env2, word2)] w)) = [d] /\
       d = stored_of k (normalized env2 item2 t) /\
       StoredRecord.artistName d = field item2 "artistName").
Proof.
  split; [exact run_calls_NoDup | split].
  - intros s k update doc s' Hnd Hup. unfold mem_findOneAndUpdate in Hup.
    assert (Hdone : doc = to_document (stored_of k update) /\
                    docs s' = upsert k (stored_of k update) (docs s)).
    { destruct (faults s) as [| [] later]; inversion Hup; subst; auto. }
    destruct Hdone as [-> Hdocs]. unfold stored_under, ids. rewrite Hdocs.
    repeat split.
    + by apply upsert_stored.
    + intros Hin. rewrite upsert_ids by reflexivity.
      apply has_id_elem in Hin. by rewrite Hin.
  - intros env1 word1 item1 env2 word2 item2 k w Hnd Hf H1 H2 Hk1 Hk2 Hk0. simpl.
    destruct (stored_single_item env1 word1 item1 k w H1 Hk1 Hk0 Hf) as [Hd1 Hf1].
    set (w1 := snd (searchAndSave save env1 word1 w)) in *.
    destruct (stored_single_item env2 word2 item2 k w1 H2 Hk2 Hk0 Hf1) as [Hd2 _].
    exists (stored_of k (normalized env2 item2 (ticks w1))), (ticks w1).
    repeat split. unfold stored_under. rewrite Hd2. apply upsert_stored; [reflexivity |].
    rewrite Hd1. by apply upsert_NoDup.
Qed.

End StoredSearches.

(** ** Worked scenarios *)

Section Scenarios.

Local Abbreviation save := mem_findOneAndUpdate.

Example search_url_escapes :
  search_url "a b&c" = "https://itunes.apple.com/search?term=a%20b%26c&limit=30&country=sa".
Proof. reflexivity. Qed.

(** A 503 from the catalog. *)
Lemma upstream_503_is_absorbed :
  fetch (answering 503 (Normal JNull)) (search_url "test")
    = Normal {| status := 503; json := Normal JNull |} /\
  ok {| status := 503; json := Normal JNull |} = false /\
  fst (searchAndSave save (answering 503 (Normal JNull)) "test" empty_world) = Normal [].
Proof.
  split; [reflexivity | split; [reflexivity |]].
  apply (searchAndSave_absorbs_upstream_failure save (answering 503 (Normal JNull)) "test"
           empty_world {| status := 503; json := Normal JNull |});
    [reflexivity | left; reflexivity].
Defined.

(** A 200 whose [results] is a string: it is no array, yet the loop walks
    its characters and the call returns one document for each. *)
Lemma string_results_are_iterated :
  fetch (catalog_of (JStr "ab")) (search_url "test")
    = Normal {| status := 200; json := Normal (JObj {[ "results" := JStr "ab" ]}) |} /\
  has_results_array (JObj {[ "results" := JStr "ab" ]}) = false /\
  fst (searchAndSave save (catalog_of (JStr "ab")) "test" empty_world) <> Normal [] /\
  length (successes (attempts save (catalog_of (JStr "ab")) (chars "ab") empty_world)) = 2%nat.
Proof.
  repeat split; try reflexivity. vm_compute. discriminate.
Qed.

(** Three items, the store unavailable for the second write. *)
Lemma second_of_three_fails :
  let env := catalog_of (JArr [podcast; song; bare]) in
  let w := store_with [] [false; true; false] in
  catalog_items env "test" = Some [podcast; song; bare] /\
  Forall (fun item => nullish item = false) [podcast; song; bare] /\
  upsert_failures save env [podcast; song; bare] w = 1%nat /\
  exists saved,
    fst (searchAndSave save env "test" w) = Normal saved /\
    length saved = (length [podcast; song; bare] - 1)%nat /\
    saved = successes (attempts save env [podcast; song; bare] w) /\
    length (attempts save env [podcast; song; bare] w) = length [podcast; song; bare].
Proof.
  intros env w.
  assert (Hitems : catalog_items env "test" = Some [podcast; song; bare]) by reflexivity.
  assert (Hall : Forall (fun item => nullish item = false) [podcast; song; bare])
    by (repeat constructor).
  assert (Hone : upsert_failures save env [podcast; song; bare] w = 1%nat)
    by (vm_compute; reflexivity).
  repeat split; try assumption.
  exact (one_failed_upsert_is_skipped save env "test" w [podcast; song; bare] Hitems Hall Hone).
Defined.

Lemma two_items_in_catalog_order :
  let env := catalog_of (JArr [podcast; song]) in
  catalog_items env "test" = Some [podcast; song] /\
  Forall (fun item => nullish item = false) [podcast; song] /\
  exists saved,
    fst (searchAndSave save env "test" empty_world) = Normal saved /\
    length saved
      = (length [podcast; song] - upsert_failures save env [podcast; song] empty_world)%nat /\
    saved = successes (attempts save env [podcast; song] empty_world) /\
    Forall2 (fun item c => exists wi, c = attempt save env item wi)
      [podcast; song] (attempts save env [podcast; song] empty_world).
Proof.
  intros env.
  assert (Hitems : catalog_items env "test" = Some [podcast; song]) by reflexivity.
  assert (Hall : Forall (fun item => nullish item = false) [podcast; song])
    by (repeat constructor).
  repeat split; try assumption.
  exact (searchAndSave_returns_saved_in_order save env "test" empty_world [podcast; song]
           Hitems Hall).
Defined.

(** The identifiers returned for [podcast; song], in that order. *)
Example two_items_returned_ids :
  match fst (searchAndSave save (catalog_of (JArr [podcast; song])) "test" empty_world) with
  | Normal saved => map (fun doc => field doc "id") saved = [JNum 1; JNum 7]
  | Throw _ => False
  end.
Proof. vm_compute. reflexivity. Qed.

(** *** The endpoint *)

Lemma endpoint_answers :
  let env := catalog_of (JArr [podcast]) in
  let down := answering 503 (Normal JNull) in
  let failing : string -> M (World MemStore) (list JsVal) :=
    fun _ => throw (Error "unexpected") in
  fst (search_route (searchAndSave save env) (search_request "") empty_world)
    = Normal {| statusCode := 400; body := error_body "searchWord parameter is required" |} /\
  fst (search_route (searchAndSave save env) {| params := ∅ |} empty_world)
    = Normal {| statusCode := 400; body := error_body "searchWord parameter is required" |} /\
  fst (search_route (searchAndSave save env) (search_request "test") empty_world)
    = Normal {| statusCode := 200;
                body := JArr [to_document
                                (StoredRecord.mk 1 (JStr "podcast") (JStr "A") (JStr "B")
                                   (JStr "http://x") (JStr "http://img")
                                   (JDate (wall_clock 0)))] |} /\
  fst (search_route failing (search_request "test") empty_world)
    = Normal {| statusCode := 500; body := error_body "Internal server error" |} /\
  fst (get_search save down (search_request "test") empty_world)
    = Normal {| statusCode := 200; body := JArr [] |}.
Proof.
  intros env down failing.
  assert (Hword : "test" <> "") by discriminate.
  split; [| split; [| split; [| split]]].
  - apply (get_search_contract save (searchAndSave save env) env (search_request "") empty_world).
    right. reflexivity.
  - apply (get_search_contract save (searchAndSave save env) env {| params := ∅ |} empty_world).
    left. reflexivity.
  - apply (proj1 (proj2 (get_search_contract save (searchAndSave save env) env
                           (search_request "test") empty_world)) "test");
      [reflexivity | exact Hword | reflexivity].
  - apply (proj1 (proj2 (proj2 (get_search_contract save failing env
                                  (search_request "test") empty_world)))
             "test" (Error "unexpected"));
      [reflexivity | exact Hword | reflexivity].
  - apply (proj2 (proj2 (proj2 (get_search_contract save (searchAndSave save down) down
                                  (search_request "test") empty_world)))
             "test" {| status := 503; json := Normal JNull |});
      [reflexivity | exact Hword | reflexivity | reflexivity].
Defined.

(** *** The fallbacks *)

Lemma song_takes_its_track_name :
  nullish song = false /\
  exists r w',
    make_searchResult (catalog_of (JArr [song])) song empty_world = (Normal r, w') /\
    SearchResult.collectionName r =
      (if truthy (field song "collectionName") then field song "collectionName"
       else if truthy (field song "trackName") then field song "trackName"
       else JStr "") /\
    SearchResult.collectionViewUrl r =
      (if truthy (field song "collectionViewUrl") then field song "collectionViewUrl"
       else if truthy (field song "trackViewUrl") then field song "trackViewUrl"
       else JStr "").
Proof.
  split; [reflexivity |].
  exact (collectionName_fallback (catalog_of (JArr [song])) song empty_world eq_refl).
Defined.

Example song_names :
  match fst (make_searchResult (catalog_of (JArr [song])) song empty_world) with
  | Normal r =>
      SearchResult.collectionName r = JStr "T" /\
      SearchResult.collectionViewUrl r = JStr "http://t"
  | Throw _ => False
  end.
Proof. vm_compute. split; reflexivity. Qed.

Example bare_names :
  match fst (make_searchResult (catalog_of (JArr [bare])) bare empty_world) with
  | Normal r =>
      SearchResult.collectionName r = JStr "" /\ SearchResult.collectionViewUrl r = JStr ""
  | Throw _ => False
  end.
Proof. vm_compute. split; reflexivity. Qed.

(** A [collectionName] that is present but empty does not stay: the track
    name replaces it. *)
Lemma empty_collectionName_is_replaced :
  let item := obj [("collectionName", JStr ""); ("trackName", JStr "T")] in
  (exists fields, item = JObj fields /\ fields !! "collectionName" = Some (JStr "")) /\
  match fst (make_searchResult (catalog_of (JArr [item])) item empty_world) with
  | Normal r =>
      SearchResult.collectionName r = JStr "T" /\
      SearchResult.collectionName r <> field item "collectionName"
  | Throw _ => False
  end.
Proof.
  intros item. split.
  - eexists. split; [reflexivity |]. vm_compute. reflexivity.
  - vm_compute. split; [reflexivity | discriminate].
Qed.

Lemma song_takes_its_small_artwork :
  nullish song = false /\
  exists r w',
    make_searchResult (catalog_of (JArr [song])) song empty_world = (Normal r, w') /\
    SearchResult.image r =
      (if truthy (field song "artworkUrl600") then field song "artworkUrl600"
       else field song "artworkUrl100") /\
    (field song "artworkUrl600" = JUndefined -> field song "artworkUrl100" = JUndefined ->
     SearchResult.image r = JUndefined).
Proof.
  split; [reflexivity |].
  exact (image_fallback (catalog_of (JArr [song])) song empty_world eq_refl).
Defined.

(** With no artwork at all the image of the normalized record is
    [undefined], not the empty string. *)
Lemma image_without_artwork_is_undefined :
  field bare "artworkUrl600" = JUndefined /\
  field bare "artworkUrl100" = JUndefined /\
  match fst (make_searchResult (catalog_of (JArr [bare])) bare empty_world) with
  | Normal r => SearchResult.image r = JUndefined /\ SearchResult.image r <> JStr ""
  | Throw _ => False
  end.
Proof. vm_compute. repeat split; try reflexivity. discriminate. Qed.

(** The store's schema is what turns the missing image into the empty
    string. *)
Example stored_image_defaults_to_empty :
  match fst (searchAndSave save (catalog_of (JArr [podcast; obj [("trackId", JNum 5)]]))
               "test" empty_world) with
  | Normal saved => map (fun doc => field doc "image") saved = [JStr "http://img"; JStr ""]
  | Throw _ => False
  end.
Proof. vm_compute. reflexivity. Qed.

Lemma song_takes_its_collection_id :
  nullish song = false /\
  exists r w',
    make_searchResult (catalog_of (JArr [song])) song empty_world = (Normal r, w') /\
    SearchResult.id r =
      (if truthy (field song "trackId") then field song "trackId"
       else if truthy (field song "collectionId") then field song "collectionId"
       else JNum (now (catalog_of (JArr [song])) (ticks empty_world))).
Proof.
  split; [reflexivity |].
  exact (id_fallback (catalog_of (JArr [song])) song empty_world eq_refl).
Defined.

(** A [trackId] that is present and 0 is not the id of the record. *)
Lemma zero_trackId_is_not_the_id :
  let item := obj [("trackId", JNum 0); ("collectionId", JNum 7)] in
  (exists fields, item = JObj fields /\ fields !! "trackId" = Some (JNum 0)) /\
  match fst (make_searchResult (catalog_of (JArr [item])) item empty_world) with
  | Normal r => SearchResult.id r = JNum 7 /\ SearchResult.id r <> field item "trackId"
  | Throw _ => False
  end.
Proof.
  intros item. split.
  - eexists. split; [reflexivity |]. vm_compute. reflexivity.
  - vm_compute. split; [reflexivity | discriminate].
Qed.

Lemma zero_ids_fall_through :
  let a := obj [("trackId", JNum 0); ("collectionId", JNum 7)] in
  let b := obj [("trackId", JNum 0); ("collectionId", JNum 0)] in
  let env := catalog_of (JArr [a; b]) in
  field a "trackId" = JNum 0 /\
  (exists r w', make_searchResult env a empty_world = (Normal r, w') /\
                SearchResult.id r = JNum 7) /\
  truthy (field b "trackId") = false /\ field b "collectionId" = JNum 0 /\
  (exists r w', make_searchResult env b empty_world = (Normal r, w') /\
                SearchResult.id r = JNum (wall_clock 0)).
Proof.
  intros a b env.
  split; [reflexivity | split; [| split; [reflexivity | split; [reflexivity |]]]].
  - exact (proj1 (@zero_id_is_passed_over MemStore env a empty_world) eq_refl).
  - exact (proj2 (@zero_id_is_passed_over MemStore env b empty_world) eq_refl eq_refl).
Defined.

(** *** Searching twice *)

Lemma podcast_and_song_twice :
  let env := catalog_of (JArr [podcast; song]) in
  let w := store_with [] [false; true] in
  let w1 := snd (searchAndSave save env "test" w) in
  catalog_items env "test" = Some [podcast; song] /\
  Forall (fun item => has_catalog_id item = true) [podcast; song] /\
  exists first second,
    fst (searchAndSave save env "test" w) = Normal first /\
    fst (searchAndSave save env "test" w1) = Normal second /\
    first = successes (attempts save env [podcast; song] w) /\
    second = successes (attempts save env [podcast; song] w1) /\
    Forall2 (agree_when_saved env)
      (attempts save env [podcast; song] w) (attempts save env [podcast; song] w1) /\
    (faults (db w) = [] ->
     Forall2 (fun a b => same_entity a b /\ written_later env a b) first second /\
     ids (db (snd (searchAndSave save env "test" w1))) = ids (db w1)).
Proof.
  intros env w w1.
  assert (Hitems : catalog_items env "test" = Some [podcast; song]) by reflexivity.
  assert (Hall : Forall (fun item => has_catalog_id item = true) [podcast; song])
    by (repeat constructor).
  repeat split; try assumption.
  exact (repeated_search_overwrites env "test" [podcast; song] w Hitems Hall).
Defined.

Lemma podcast_and_song_twice_available :
  let env := catalog_of (JArr [podcast; song]) in
  let w1 := snd (searchAndSave save env "test" empty_world) in
  match fst (searchAndSave save env "test" empty_world),
        fst (searchAndSave save env "test" w1) with
  | Normal first, Normal second =>
      map (fun doc => field doc "id") first = [JNum 1; JNum 7] /\
      map (fun doc => field doc "id") second = [JNum 1; JNum 7] /\
      map (fun doc => field doc "searchDate") first
        = [JDate (wall_clock 0); JDate (wall_clock 1)] /\
      map (fun doc => field doc "searchDate") second
        = [JDate (wall_clock 2); JDate (wall_clock 3)]
  | _, _ => False
  end /\
  ids (db (snd (searchAndSave save env "test" w1))) = [1; 7].
Proof. vm_compute. repeat split; reflexivity. Qed.

(** An item without identifier gets a new id from the clock at each call:
    the two calls return different ids for it and the store ends with two
    documents. *)
Lemma clock_ids_change_between_calls :
  let env := catalog_of (JArr [bare]) in
  let w1 := snd (searchAndSave save env "test" empty_world) in
  let w2 := snd (searchAndSave save env "test" w1) in
  catalog_items env "test" = Some [bare] /\
  match fst (searchAndSave save env "test" empty_world),
        fst (searchAndSave save env "test" w1) with
  | Normal [a], Normal [b] =>
      field a "id" = JNum (wall_clock 0) /\ field b "id" = JNum (wall_clock 2) /\
      field a "id" <> field b "id" /\ ~ same_entity a b
  | _, _ => False
  end /\
  ids (db w1) = [wall_clock 0] /\
  ids (db w2) = [wall_clock 0; wall_clock 2].
Proof.
  intros env w1 w2. split; [reflexivity |]. split; [| split; vm_compute; reflexivity].
  vm_compute. repeat split; try discriminate.
  intros Hsame. inversion Hsame as [| ? ? Hid _]. discriminate Hid.
Qed.

(** *** One record per id *)

Lemma artist_renamed_between_calls :
  let renamed :=
    obj [("trackId", JNum 1); ("kind", JStr "podcast"); ("artistName", JStr "A2")] in
  let env1 := catalog_of (JArr [podcast]) in
  let env2 := catalog_of (JArr [renamed]) in
  let w2 := run_calls [(env1, "first"); (env2, "second")] empty_world in
  NoDup (ids (db empty_world)) /\
  NoDup (ids (db w2)) /\
  (exists d t,
     stored_under 1 (db w2) = [d] /\
     d = stored_of 1 (normalized env2 renamed t) /\
     StoredRecord.artistName d = field renamed "artistName") /\
  map StoredRecord.artistName (docs (db w2)) = [JStr "A2"].
Proof.
  intros renamed env1 env2 w2.
  assert (Hnd : NoDup (ids (db empty_world))) by constructor.
  assert (Hone : 1 <> 0) by discriminate.
  destruct store_holds_one_record_per_id as (Hcalls & _ & Htwice).
  split; [exact Hnd | split; [| split]].
  - exact (Hcalls [(env1, "first"); (env2, "second")] empty_world Hnd).
  - exact (Htwice env1 "first" podcast env2 "second" renamed 1 empty_world
             Hnd eq_refl eq_refl eq_refl eq_refl eq_refl Hone).
  - vm_compute. reflexivity.
Defined.

End Scenarios.


(** * Further properties *)

(** ** The service, whatever the store *)

Section ServiceAtLarge.

Context {St : Type}.
Variable findOneAndUpdate : St -> JsVal -> SearchResult.t -> Completion JsVal * St.

Lemma after_item_console env item (w : World St) :
  console (after_item findOneAndUpdate env item w) =
    console w ++ iteration_log (attempt findOneAndUpdate env item w).
Proof.
  destruct (nullish item) eqn:Hn.
  - destruct (iteration_nullish findOneAndUpdate env item w Hn) as (e & -> & ->). reflexivity.
  - destruct (iteration_eq findOneAndUpdate env item w Hn) as [-> ->]. reflexivity.
Qed.

Lemma after_items_console env items : forall w : World St,
  console (after_items findOneAndUpdate env items w) =
    console w ++ concat (map iteration_log (attempts findOneAndUpdate env items w)).
Proof.
  induction items as [| item rest IH]; intros w; simpl.
  - by rewrite app_nil_r.
  - by rewrite IH, after_item_console, app_assoc.
Qed.

Lemma iteration_logs_length (cs : list (Completion JsVal)) :
  length (concat (map iteration_log cs)) = failures cs.
Proof.
  unfold failures. induction cs as [| [doc | e] cs IH]; simpl; auto.
Qed.

Lemma iteration_logs_label (cs : list (Completion JsVal)) :
  Forall (fun line => fst line = "Error saving individual result:")
    (concat (map iteration_log cs)).
Proof.
  induction cs as [| [doc | e] cs IH]; simpl; auto.
Qed.

Lemma searchAndSave_on_iterated env searchWord items (w : World St) :
  iterated_items env searchWord = Some items ->
  searchAndSave findOneAndUpdate env searchWord w =
    (Normal (successes (attempts findOneAndUpdate env items w)),
     after_items findOneAndUpdate env items w).
Proof.
  unfold iterated_items, searchAndSave, try_catch, bind, await_fetch, lift. simpl.
  destruct (fetch env (search_url searchWord)) as [response | e]; [| discriminate].
  destruct (ok response); [| discriminate]. simpl.
  destruct (json response) as [data | e]; [| discriminate].
  destruct (get_prop data "results") as [results | e]; [| discriminate].
  destruct (iterate results) as [its | e]; [| discriminate].
  intros [= ->]. by rewrite for_of_run.
Qed.

(** X1: no exception escapes [searchAndSave], whatever the catalog, the
    clock and the store do: a rejected [fetch], a failure status, a body that
    does not parse, a [results] of any shape, a store that throws. *)
Theorem searchAndSave_never_throws env searchWord (w : World St) :
  exists saved, fst (searchAndSave findOneAndUpdate env searchWord w) = Normal saved.
Proof.
  destruct (iterated_items env searchWord) as [items |] eqn:Hit.
  - rewrite (searchAndSave_on_iterated env searchWord items w Hit). simpl. eauto.
  - unfold iterated_items in Hit.
    unfold searchAndSave, try_catch, bind, await_fetch, lift, throw, console_error, ret.
    destruct (fetch env (search_url searchWord)) as [response | e]; simpl; eauto.
    destruct (ok response); simpl; eauto.
    destruct (json response) as [data | e]; simpl; eauto.
    destruct (get_prop data "results") as [results | e]; simpl; eauto.
    destruct (iterate results) as [its | e]; simpl; eauto. discriminate.
Qed.

Lemma searchAndSave_without_loop env searchWord (w : World St) :
  iterated_items env searchWord = None ->
  exists e,
    searchAndSave findOneAndUpdate env searchWord w =
      (Normal [],
       {| db := db w; ticks := ticks w;
          console := console w ++ [("Error in searchAndSave:", e)] |}).
Proof.
  unfold iterated_items.
  unfold searchAndSave, try_catch, bind, await_fetch, lift, throw, console_error, ret.
  destruct (fetch env (search_url searchWord)) as [response | e]; simpl; eauto.
  destruct (ok response); simpl; eauto.
  destruct (json response) as [data | e]; simpl; eauto.
  destruct (get_prop data "results") as [results | e]; simpl; eauto.
  destruct (iterate results) as [its | e]; simpl; eauto. discriminate.
Qed.

Lemma get_search_on_word env req searchWord (w : World St) :
  params req !! "searchWord" = Some searchWord -> searchWord <> "" ->
  exists saved,
    fst (searchAndSave findOneAndUpdate env searchWord w) = Normal saved /\
    fst (get_search findOneAndUpdate env req w)
      = Normal {| statusCode := 200; body := JArr saved |}.
Proof.
  intros Hparam Hne.
  unfold get_search, search_route, try_catch, bind, ret, console_error. rewrite Hparam.
  simpl. destruct (String.eqb_spec searchWord "") as [-> | _]; [contradiction |]. simpl.
  destruct (searchAndSave_returns findOneAndUpdate env searchWord w) as [saved Hsaved].
  destruct (searchAndSave findOneAndUpdate env searchWord w) as [c w1].
  simpl in Hsaved. subst c. simpl. eauto.
Qed.

(** X2: when a call does not get to its loop ([fetch] rejects, the status is
    not 2xx, the body does not parse, or [results] cannot be iterated) it
    returns the empty list, writes nothing to the store, does not read the
    clock, and leaves exactly one line, "Error in searchAndSave:", on the
    console. *)
Theorem failed_call_leaves_store_untouched env searchWord (w : World St) :
  iterated_items env searchWord = None ->
  exists e,
    searchAndSave findOneAndUpdate env searchWord w =
      (Normal [],
       {| db := db w; ticks := ticks w;
          console := console w ++ [("Error in searchAndSave:", e)] |}).
Proof.
  intros Hnone. unfold iterated_items in Hnone.
  unfold searchAndSave, try_catch, bind, await_fetch, lift, throw, console_error, ret.
  destruct (fetch env (search_url searchWord)) as [response | e]; simpl; eauto.
  destruct (ok response); simpl; eauto.
  destruct (json response) as [data | e]; simpl; eauto.
  destruct (get_prop data "results") as [results | e]; simpl; eauto.
  destruct (iterate results) as [its | e]; simpl; eauto. discriminate.
Qed.

(** X3: every element the loop iterates over is accounted for: it gave one
    returned document or one console line "Error saving individual result:",
    never both and never neither. *)
Theorem every_item_is_saved_or_logged env searchWord items (w : World St) :
  iterated_items env searchWord = Some items ->
  exists saved lines,
    fst (searchAndSave findOneAndUpdate env searchWord w) = Normal saved /\
    console (snd (searchAndSave findOneAndUpdate env searchWord w)) = console w ++ lines /\
    (length saved + length lines = length items)%nat /\
    Forall (fun line => fst line = "Error saving individual result:") lines.
Proof.
  intros Hit. rewrite (searchAndSave_on_iterated env searchWord items w Hit). simpl.
  exists (successes (attempts findOneAndUpdate env items w)),
         (concat (map iteration_log (attempts findOneAndUpdate env items w))).
  split; [reflexivity |]. split; [apply after_items_console |]. split.
  - rewrite iteration_logs_length, successes_failures. apply attempts_length.
  - apply iteration_logs_label.
Qed.

Lemma null_items_run env items : forall w : World St,
  Forall (fun item => nullish item = true) items ->
  successes (attempts findOneAndUpdate env items w) = [] /\
  db (after_items findOneAndUpdate env items w) = db w /\
  ticks (after_items findOneAndUpdate env items w) = ticks w /\
  length (console (after_items findOneAndUpdate env items w))
    = (length (console w) + length items)%nat.
Proof.
  induction items as [| item rest IH]; intros w Hall; simpl.
  - repeat split; lia.
  - inversion Hall as [| ? ? Hn Hrest]; subst.
    destruct (iteration_nullish findOneAndUpdate env item w Hn) as (e & -> & ->).
    destruct (IH {| db := db w; ticks := ticks w;
                    console := console w ++ [("Error saving individual result:", e)] |}
                 Hrest) as (-> & -> & -> & ->).
    simpl. rewrite length_app. simpl. repeat split; lia.
Qed.

(** X4: a [results] made of [null]s only: every element is logged and
    skipped before any document is built, so the call returns the empty list
    without reading the clock or calling the store. *)
Theorem null_items_are_skipped env searchWord items (w : World St) :
  iterated_items env searchWord = Some items ->
  Forall (fun item => nullish item = true) items ->
  fst (searchAndSave findOneAndUpdate env searchWord w) = Normal [] /\
  db (snd (searchAndSave findOneAndUpdate env searchWord w)) = db w /\
  ticks (snd (searchAndSave findOneAndUpdate env searchWord w)) = ticks w /\
  length (console (snd (searchAndSave findOneAndUpdate env searchWord w)))
    = (length (console w) + length items)%nat.
Proof.
  intros Hit Hall. rewrite (searchAndSave_on_iterated env searchWord items w Hit). simpl.
  destruct (null_items_run env items w Hall) as (-> & -> & -> & ->). auto.
Qed.

Lemma js_or_truthy_or_default a d : truthy (js_or a d) = true \/ js_or a d = d.
Proof.
  unfold js_or. destruct (truthy a) eqn:E; [left; exact E | right; reflexivity].
Qed.

(** X5: the document built for an item never has an undefined or [null]
    [collectionName] or [collectionViewUrl]: each is a truthy value of the
    item or the empty string; its [searchDate] is a date; and its [id] is
    truthy whenever the clock does not read 0. *)
Theorem built_document_has_its_required_fields env item (w : World St) :
  nullish item = false ->
  exists r w',
    make_searchResult env item w = (Normal r, w') /\
    (truthy (SearchResult.collectionName r) = true \/ SearchResult.collectionName r = JStr "") /\
    (truthy (SearchResult.collectionViewUrl r) = true
     \/ SearchResult.collectionViewUrl r = JStr "") /\
    (exists ms, SearchResult.searchDate r = JDate ms) /\
    (now env (ticks w) <> 0 -> truthy (SearchResult.id r) = true).
Proof.
  intros Hn. rewrite (make_searchResult_eq env item w Hn).
  do 2 eexists. split; [reflexivity |]. unfold normalized. simpl.
  split; [apply js_or_truthy_or_default |].
  split; [apply js_or_truthy_or_default |].
  split; [eauto |].
  intros Hclock. unfold has_catalog_id, js_or.
  destruct (truthy (field item "trackId")) eqn:E1; simpl; [exact E1 |].
  destruct (truthy (field item "collectionId")) eqn:E2; simpl; [exact E2 |].
  by apply negb_true_iff, Z.eqb_neq.
Qed.

(** X6: a call reaches the store through [findOneAndUpdate] only: a
    property of the store that every upsert keeps, whatever its arguments
    and outcome, still holds after the call. *)
Theorem call_keeps_store_invariant (P : St -> Prop) env searchWord (w : World St) :
  (forall st filter_id update, P st -> P (snd (findOneAndUpdate st filter_id update))) ->
  P (db w) ->
  P (db (snd (searchAndSave findOneAndUpdate env searchWord w))).
Proof.
  intros Hkeep HP. by apply (searchAndSave_keeps findOneAndUpdate P Hkeep).
Qed.

(** ** The endpoint, whatever the service *)

(** X7: the route handler always answers, with status 200, 400 or 500,
    whatever the service does; no exception escapes it. *)
Theorem search_route_always_answers
    (service : string -> M (World St) (list JsVal)) req (w : World St) :
  exists r,
    fst (search_route service req w) = Normal r /\
    (statusCode r = 200 \/ statusCode r = 400 \/ statusCode r = 500).
Proof.
  unfold search_route, try_catch, bind, ret, console_error.
  destruct (params req !! "searchWord") as [searchWord |]; simpl; [| eauto].
  destruct (negb _); simpl; [eauto |].
  destruct (service searchWord w) as [[result | e] w1]; simpl; eauto.
Qed.

(** X8: with [searchAndSave] as its service the endpoint never answers 500:
    it answers 400 when the parameter is missing or empty and otherwise 200
    with an array. *)
Theorem get_search_never_answers_500 env req (w : World St) :
  exists r,
    fst (get_search findOneAndUpdate env req w) = Normal r /\
    ((statusCode r = 400 /\
      (params req !! "searchWord" = None \/ params req !! "searchWord" = Some "")) \/
     (statusCode r = 200 /\
      (exists searchWord, params req !! "searchWord" = Some searchWord /\ searchWord <> "") /\
      exists docs, body r = JArr docs)).
Proof.
  unfold get_search, search_route, try_catch, bind, ret, console_error.
  destruct (params req !! "searchWord") as [searchWord |]; simpl; [| eauto 8].
  destruct (String.eqb_spec searchWord "") as [-> | Hne]; simpl; [eauto 8 |].
  destruct (searchAndSave_returns findOneAndUpdate env searchWord w) as [saved Hsaved].
  destruct (searchAndSave findOneAndUpdate env searchWord w) as [c w1].
  simpl in Hsaved. subst c. simpl. eexists. split; [reflexivity |]. right. eauto 8.
Qed.

(** X9: a request without search word is refused before anything happens:
    the service is not called, nothing is fetched, stored or logged. *)
Theorem refused_request_changes_nothing
    (service : string -> M (World St) (list JsVal)) req (w : World St) :
  params req !! "searchWord" = None \/ params req !! "searchWord" = Some "" ->
  search_route service req w =
    (Normal {| statusCode := 400; body := error_body "searchWord parameter is required" |}, w).
Proof.
  unfold search_route, try_catch, bind, ret. intros [-> | ->]; reflexivity.
Qed.

End ServiceAtLarge.

(** ** The URLs *)

Section Urls.

Lemma all_chars_app good (a b : string) :
  all_chars good (a +:+ b) = all_chars good a && all_chars good b.
Proof. induction a as [| c a IH]; simpl; [reflexivity |]. by rewrite IH, andb_assoc. Qed.

Lemma occurrences_app c (a b : string) :
  occurrences c (a +:+ b) = (occurrences c a + occurrences c b)%nat.
Proof. induction a as [| c' a IH]; simpl; [reflexivity |]. rewrite IH. lia. Qed.

Lemma length_append (a b : string) :
  String.length (a +:+ b) = (String.length a + String.length b)%nat.
Proof. induction a as [| c a IH]; simpl; [reflexivity |]. by rewrite IH. Qed.

Lemma append_cancel_l (p a b : string) : p +:+ a = p +:+ b -> a = b.
Proof. induction p as [| c p IH]; simpl; [auto |]. intros [= H]. auto. Qed.

Lemma append_cancel_r (q : string) : forall a b : string, a +:+ q = b +:+ q -> a = b.
Proof.
  induction a as [| c a IH]; intros [| d b] H; simpl in H.
  - reflexivity.
  - apply (f_equal String.length) in H. simpl in H. rewrite !length_append in H. simpl in H. lia.
  - apply (f_equal String.length) in H. simpl in H. rewrite !length_append in H. simpl in H. lia.
  - injection H as -> H. f_equal. by apply IH.
Qed.

(** One character, escaped or kept, carries no delimiter. *)
Lemma escaped_char_has_no_delimiter (c : ascii) :
  all_chars (fun x => negb (url_delimiter x))
    (if uri_unreserved c then String c EmptyString else percent_encode c) = true.
Proof. destruct c as [[] [] [] [] [] [] [] []]; vm_compute; reflexivity. Qed.

Lemma escaped_has_no_delimiter (s : string) :
  all_chars (fun x => negb (url_delimiter x)) (encodeURIComponent s) = true.
Proof.
  induction s as [| c s IH]; simpl; [reflexivity |].
  by rewrite all_chars_app, escaped_char_has_no_delimiter, IH.
Qed.

Lemma no_delimiter_no_occurrence d (s : string) :
  url_delimiter d = true ->
  all_chars (fun x => negb (url_delimiter x)) s = true ->
  occurrences d s = 0%nat.
Proof.
  intros Hd. induction s as [| c s IH]; simpl; [reflexivity |].
  intros [Hc Hs]%andb_true_iff. rewrite (IH Hs).
  destruct (Ascii.eqb_spec c d) as [-> | _]; [| reflexivity].
  rewrite Hd in Hc. discriminate.
Qed.

(** X10: whatever the search word, the catalog URL has exactly one [?], two
    [&] and three [=] and no [#]: the word cannot add, cut or end a query
    parameter, [limit=30] and [country=sa] are always sent as written; and
    the URL the page requests has no [?] or [#] and no [/] beyond those of
    [http://localhost:3008/search/]. *)
Theorem search_word_cannot_alter_the_query (searchWord : string) :
  occurrences "?" (search_url searchWord) = 1%nat /\
  occurrences "&" (search_url searchWord) = 2%nat /\
  occurrences "=" (search_url searchWord) = 3%nat /\
  occurrences "#" (search_url searchWord) = 0%nat /\
  occurrences "/" (request_url searchWord) = 4%nat /\
  occurrences "?" (request_url searchWord) = 0%nat /\
  occurrences "#" (request_url searchWord) = 0%nat.
Proof.
  pose proof (escaped_has_no_delimiter searchWord) as Hsafe.
  unfold search_url, request_url. rewrite !occurrences_app.
  rewrite !(fun d Hd => no_delimiter_no_occurrence d (encodeURIComponent searchWord) Hd Hsafe)
    by reflexivity.
  repeat split; reflexivity.
Qed.

(** Decoding what one character was escaped to gives the character back. *)
Lemma decode_escaped_char (c : ascii) (rest : string) :
  percent_decode
    ((if uri_unreserved c then String c EmptyString else percent_encode c) +:+ rest)
  = match percent_decode rest with
    | Some decoded => Some (String c decoded)
    | None => None
    end.
Proof. destruct c as [[] [] [] [] [] [] [] []]; reflexivity. Qed.

Lemma decode_escaped (s : string) : percent_decode (encodeURIComponent s) = Some s.
Proof.
  induction s as [| c s IH]; simpl; [reflexivity |].
  by rewrite decode_escaped_char, IH.
Qed.

(** X11: escaping loses nothing: percent-decoding an escaped word gives the
    word back, so two different search words never give the same catalog
    URL, nor the same request URL. *)
Theorem escaping_is_reversible :
  (forall s, percent_decode (encodeURIComponent s) = Some s) /\
  (forall a b, search_url a = search_url b -> a = b) /\
  (forall a b, request_url a = request_url b -> a = b).
Proof.
  assert (Hinj : forall a b, encodeURIComponent a = encodeURIComponent b -> a = b).
  { intros a b H. apply (f_equal percent_decode) in H.
    rewrite !decode_escaped in H. congruence. }
  split; [exact decode_escaped | split].
  - intros a b H. unfold search_url in H.
    apply append_cancel_l, append_cancel_r in H. by apply Hinj.
  - intros a b H. unfold request_url in H.
    apply append_cancel_l in H. by apply Hinj.
Qed.

End Urls.

(** ** The search page *)

Section PageFacts.

Lemma strict_eq_string_spec v s : strict_eq_string v s = true <-> v = JStr s.
Proof.
  destruct v; simpl; try (split; [discriminate | congruence]).
  destruct (String.eqb_spec s0 s); split; congruence.
Qed.

Lemma is_podcast_eq r :
  nullish r = false ->
  is_podcast r = Normal (strict_eq_string (field r "kind") "podcast") /\
  is_not_podcast r = Normal (negb (strict_eq_string (field r "kind") "podcast")).
Proof.
  intros Hn. unfold is_podcast, is_not_podcast. by rewrite (get_prop_field r "kind" Hn).
Qed.

(** X12: the two lists the page draws split the results: a result whose
    [kind] is the string [podcast] is among the podcasts, every other one
    among the other results, each in the order of the results, so the two
    counts shown add up to the count in the heading. *)
Theorem results_split_into_podcasts_and_others (rs : list JsVal) :
  Forall (fun r => nullish r = false) rs ->
  exists ps os,
    podcasts rs = Normal ps /\ otherResults rs = Normal os /\
    (length ps + length os = length rs)%nat /\
    sublist ps rs /\ sublist os rs /\
    Forall (fun r => field r "kind" = JStr "podcast") ps /\
    Forall (fun r => field r "kind" <> JStr "podcast") os /\
    (forall r, r ∈ rs -> r ∈ ps \/ r ∈ os).
Proof.
  unfold podcasts, otherResults.
  induction rs as [| r rs IH]; intros Hall.
  - exists [], []. simpl.
    split_and!; [reflexivity | reflexivity | reflexivity | constructor | constructor
                | constructor | constructor |].
    intros r' Hr. by apply elem_of_nil in Hr.
  - inversion Hall as [| ? ? Hn Hrest]; subst.
    destruct (IH Hrest) as (ps & os & Hp & Ho & Hlen & Hsp & Hso & Hkp & Hko & Hcover).
    cbn [js_filter]. destruct (is_podcast_eq r Hn) as [-> ->]. rewrite Hp, Ho.
    destruct (strict_eq_string (field r "kind") "podcast") eqn:Hk; simpl.
    + apply strict_eq_string_spec in Hk.
      exists (r :: ps), os. split_and!; simpl; auto.
      * by apply sublist_skip.
      * by apply sublist_cons.
      * intros r' [-> | Hr']%elem_of_cons; [left; by left |].
        destruct (Hcover r' Hr'); [left; by right | by right].
    + assert (Hne : field r "kind" <> JStr "podcast").
      { intros Heq. apply strict_eq_string_spec in Heq. congruence. }
      exists ps, (r :: os). split_and!; simpl; auto.
      * lia.
      * by apply sublist_cons.
      * by apply sublist_skip.
      * intros r' [-> | Hr']%elem_of_cons; [right; by left |].
        destruct (Hcover r' Hr'); [by left | right; by right].
Qed.


Variable trim : string -> string.
Variable network : string -> Exchange.
Variable origin pathname : string.

Lemma searchAPI_blank term p :
  truthy (JStr (trim term)) = false -> searchAPI trim network term p = p.
Proof. unfold searchAPI. by intros ->. Qed.

Lemma searchAPI_requests term p :
  truthy (JStr (trim term)) = true ->
  Page.requests (searchAPI trim network term p) = Page.requests p ++ [request_url term] /\
  Page.searchTerm (searchAPI trim network term p) = Page.searchTerm p /\
  Page.history (searchAPI trim network term p) = Page.history p /\
  Page.aborted (searchAPI trim network term p) = Page.aborted p /\
  Page.abortController (searchAPI trim network term p) = Some (Page.controllers p).
Proof.
  unfold searchAPI, searchAPI_catch. intros ->. simpl.
  destruct (fetched (network (request_url term))) as [response | error]; simpl.
  - destruct (aborted_after_fetch _); simpl; [auto |].
    destruct (reply_ok response); simpl; [| auto].
    destruct (reply_json response) as [data | error]; simpl.
    + destruct (aborted_after_json _); simpl; auto.
    + destruct (is_abort error); simpl; auto.
  - destruct (is_abort error); simpl; auto.
Qed.

(** X14: the page never asks the backend for an empty word: [searchAPI]
    either does nothing at all or sends exactly one request, for a word that
    is not empty, so the endpoint's 400 answer is out of the page's reach. *)
Theorem page_never_requests_an_empty_word term p :
  trim "" = "" ->
  searchAPI trim network term p = p \/
  (term <> "" /\
   Page.requests (searchAPI trim network term p) = Page.requests p ++ [request_url term] /\
   request_url term <> request_url "").
Proof.
  intros Htrim. destruct (truthy (JStr (trim term))) eqn:Ht.
  - right. assert (Hne : term <> "").
    { intros ->. rewrite Htrim in Ht. discriminate. }
    split; [exact Hne |]. split; [apply (searchAPI_requests term p Ht) |].
    intros Heq. unfold request_url in Heq. apply append_cancel_l in Heq.
    apply (f_equal percent_decode) in Heq. rewrite !decode_escaped in Heq. congruence.
  - left. by apply searchAPI_blank.
Qed.

(** X15: a cancelled request never shows: when the request is aborted
    ([AbortError], or the controller found aborted at a check) [searchAPI]
    leaves [results] and [hasSearched] as they were, and the spinner it
    turned on stays on. *)
Theorem aborted_request_changes_no_result term p :
  truthy (JStr (trim term)) = true ->
  exchange_aborted (network (request_url term)) = true ->
  Page.results (searchAPI trim network term p) = Page.results p /\
  Page.hasSearched (searchAPI trim network term p) = Page.hasSearched p /\
  Page.loading (searchAPI trim network term p) = true.
Proof.
  unfold searchAPI, searchAPI_catch, exchange_aborted. intros ->. simpl.
  destruct (fetched (network (request_url term))) as [response | error]; simpl.
  - destruct (aborted_after_fetch _); simpl; [auto |].
    destruct (reply_ok response); simpl; [| discriminate].
    destruct (reply_json response) as [data | error]; simpl.
    + intros ->. auto.
    + intros ->. auto.
  - intros ->. auto.
Qed.

(** X16: a request that fails (network error, status outside 200..299, body
    that does not parse) empties [results] and stops the spinner but leaves
    [hasSearched] alone: after a first search that fails the page shows its
    start message, after a later one "no results". *)
Theorem failed_request_empties_results term p :
  truthy (JStr (trim term)) = true ->
  exchange_failed (network (request_url term)) = true ->
  let p' := searchAPI trim network term p in
  Page.results p' = JArr [] /\ Page.loading p' = false /\
  Page.hasSearched p' = Page.hasSearched p /\
  panes p' = if Page.hasSearched p then [NoResults] else [DefaultMessage].
Proof.
  unfold searchAPI, searchAPI_catch, exchange_failed, panes,
    shows_default, shows_spinner, shows_results, shows_no_results.
  intros ->. simpl.
  destruct (fetched (network (request_url term))) as [response | error]; simpl.
  - destruct (aborted_after_fetch _); simpl; [discriminate |].
    destruct (reply_ok response); simpl.
    + destruct (reply_json response) as [data | error]; simpl; [discriminate |].
      destruct (is_abort error); simpl; [discriminate |].
      destruct (Page.hasSearched p); auto.
    + destruct (Page.hasSearched p); auto.
  - destruct (is_abort error); simpl; [discriminate |].
    destruct (Page.hasSearched p); auto.
Qed.


(** X18: clearing the search box (a word that is empty or all blanks)
    cancels the request in flight, sends none, empties [results], takes the
    query off the address bar and brings the start message back. *)
Theorem blank_word_resets_the_page term p :
  term = "" \/ trim term = "" ->
  let p' := handleSearchTermChange trim network origin pathname term p in
  Page.searchTerm p' = term /\ Page.results p' = JArr [] /\
  Page.loading p' = false /\ Page.hasSearched p' = false /\
  Page.abortController p' = None /\
  Page.aborted p' = Page.aborted p ++ option_list (Page.abortController p) /\
  Page.requests p' = Page.requests p /\
  Page.history p' = Page.history p ++ [replaceState (origin +:+ pathname)] /\
  panes p' = [DefaultMessage].
Proof.
  intros Hblank. unfold handleSearchTermChange.
  assert (Hcond : negb (truthy (JStr term)) || String.eqb term "" || String.eqb (trim term) ""
                  = true).
  { destruct Hblank as [-> | ->]; simpl; [reflexivity |]. by rewrite orb_true_r. }
  rewrite Hcond. destruct p as [? ? ? ? [controller |] ? ? ? ? ?]; simpl;
    rewrite ?app_nil_r; repeat split; reflexivity.
Qed.

(** X19: typing a word that is not blank cancels the request in flight and
    sends exactly one new request, for the trimmed word, the same trimmed
    word that is put in the address bar as [?q=]. *)
Theorem typed_word_is_requested_trimmed term p :
  term <> "" -> trim term <> "" -> trim (trim term) = trim term ->
  let p' := handleSearchTermChange trim network origin pathname term p in
  Page.searchTerm p' = term /\
  Page.requests p' = Page.requests p ++ [request_url (trim term)] /\
  Page.history p' =
    Page.history p
    ++ [replaceState (origin +:+ pathname +:+ "?q=" +:+ encodeURIComponent (trim term))] /\
  Page.aborted p' = Page.aborted p ++ option_list (Page.abortController p) /\
  Page.abortController p' = Some (Page.controllers p).
Proof.
  intros Hterm Htrim Hidem. unfold handleSearchTermChange.
  assert (Hne : forall s : string, s <> "" -> String.eqb s "" = false).
  { intros s Hs. by destruct (String.eqb_spec s ""). }
  assert (Hcond : negb (truthy (JStr term)) || String.eqb term "" || String.eqb (trim term) ""
                  = false).
  { simpl. by rewrite (Hne _ Hterm), (Hne _ Htrim). }
  rewrite Hcond.
  assert (Ht : truthy (JStr (trim (trim term))) = true).
  { rewrite Hidem. simpl. by rewrite (Hne _ Htrim). }
  match goal with |- context [searchAPI trim network (trim term) ?q] =>
    destruct (searchAPI_requests (trim term) q Ht) as (-> & -> & -> & -> & ->) end.
  destruct p as [? ? ? ? [controller |] ? ? ? ? ?]; simpl;
    rewrite ?app_nil_r; repeat split; reflexivity.
Qed.

End PageFacts.

(** ** Submitting and navigating *)

Section NavigationFacts.

Variable trim : string -> string.
Variable network : string -> Exchange.
Variable protocol host pathname : string.
Variable href_with_q : string -> string.

(** X21: submitting the form with a blank word does nothing; with any other
    word it pushes exactly one history entry, for the trimmed word, and sends
    exactly one request, for the word as typed, blanks included. *)
Theorem submitted_word_is_requested_as_typed p :
  let p' := handleSearch trim network protocol host pathname href_with_q p in
  (truthy (JStr (trim (Page.searchTerm p))) = false -> p' = p) /\
  (truthy (JStr (trim (Page.searchTerm p))) = true -> Page.searchTerm p <> "" ->
   Page.history p' = Page.history p ++ [pushState (href_with_q (trim (Page.searchTerm p)))] /\
   Page.requests p' = Page.requests p ++ [request_url (Page.searchTerm p)] /\
   Page.searchTerm p' = Page.searchTerm p).
Proof.
  unfold handleSearch. split.
  - by intros ->.
  - intros Ht Hne. rewrite Ht.
    match goal with |- context [searchAPI trim network ?t ?q] =>
      destruct (searchAPI_requests trim network t q Ht) as (-> & -> & -> & _) end.
    unfold updateURL. rewrite Ht, andb_true_r.
    assert (Hterm : truthy (JStr (Page.searchTerm p)) = true).
    { simpl. by destruct (String.eqb_spec (Page.searchTerm p) ""). }
    rewrite Hterm. auto.
Qed.

(** X22: back and forward navigation never writes to the history; on an
    address without a usable [q] it sends no request, empties the results
    and brings the start message back; on an address with one it sends
    exactly one request, for [q] as it stands. *)
Theorem navigation_never_writes_history q p :
  let query := match q with Some s => s | None => "" end in
  let p' := handlePopState trim network q p in
  Page.history p' = Page.history p /\
  Page.searchTerm p' = query /\
  (truthy (JStr (trim query)) = false ->
   Page.requests p' = Page.requests p /\ Page.results p' = JArr [] /\
   Page.hasSearched p' = false /\ Page.loading p' = false /\ panes p' = [DefaultMessage]) /\
  (truthy (JStr (trim query)) = true ->
   Page.requests p' = Page.requests p ++ [request_url query]).
Proof.
  assert (Hquery : match q with Some s => if truthy (JStr s) then s else "" | None => "" end
                   = match q with Some s => s | None => "" end).
  { destruct q as [s |]; [| reflexivity]. simpl.
    by destruct (String.eqb_spec s "") as [-> | _]. }
  unfold handlePopState. rewrite Hquery.
  destruct (truthy (JStr (trim match q with Some s => s | None => "" end))) eqn:Ht.
  - match goal with |- context [searchAPI trim network ?t ?r] =>
      destruct (searchAPI_requests trim network t r Ht) as (-> & -> & -> & _) end.
    split_and!; auto. discriminate.
  - split_and!; auto. discriminate.
Qed.

End NavigationFacts.

(** ** The page and the backend together *)

Section PageAndBackend.

Context {St : Type}.
Variable findOneAndUpdate : St -> JsVal -> SearchResult.t -> Completion JsVal * St.
Variable trim : string -> string.
Variable network : string -> Exchange.

(** X20: what the endpoint answers to the page's request can always be
    shown: when the page receives, unaborted, the endpoint's answer to its
    word, [results] becomes an array and the page shows the result list or
    "no results"; and when the catalog call failed behind the endpoint the
    page shows "no results", not an error. *)
Theorem backend_answer_is_always_shown env (w : World St) term p r :
  trim "" = "" ->
  truthy (JStr (trim term)) = true ->
  fst (get_search findOneAndUpdate env (search_request term) w) = Normal r ->
  network (request_url term) = answered (reply_of r) ->
  let p' := searchAPI trim network term p in
  (exists docs, Page.results p' = JArr docs) /\
  Page.hasSearched p' = true /\ Page.loading p' = false /\
  (panes p' = [ResultList] \/ panes p' = [NoResults]) /\
  (iterated_items env term = None -> panes p' = [NoResults]).
Proof.
  intros Htrim Ht Hr Hnet.
  assert (Hne : term <> "").
  { intros ->. rewrite Htrim in Ht. discriminate. }
  assert (Hparam : params (search_request term) !! "searchWord" = Some term)
    by apply lookup_singleton_eq.
  destruct (get_search_on_word findOneAndUpdate env (search_request term) term w Hparam Hne)
    as (saved & Hsaved & Hanswer).
  rewrite Hanswer in Hr. injection Hr as <-.
  unfold searchAPI, panes, shows_default, shows_spinner, shows_results, shows_no_results.
  rewrite Ht, Hnet. simpl. split_and!; eauto.
  - destruct saved; simpl; auto.
  - intros Hnone.
    destruct (searchAndSave_without_loop findOneAndUpdate env term w Hnone) as [e He].
    rewrite He in Hsaved. simpl in Hsaved. injection Hsaved as <-. reflexivity.
Qed.

End PageAndBackend.

(** ** Further scenarios *)

Section FurtherScenarios.

Local Abbreviation save := mem_findOneAndUpdate.

Lemma rejected_fetch_is_absorbed :
  let env := {| fetch := fun _ => Throw (TypeError "fetch failed"); now := wall_clock |} in
  iterated_items env "test" = None /\
  exists e,
    searchAndSave save env "test" empty_world =
      (Normal [],
       {| db := db empty_world; ticks := ticks empty_world;
          console := console empty_world ++ [("Error in searchAndSave:", e)] |}).
Proof.
  intros env. split; [reflexivity |].
  exact (failed_call_leaves_store_untouched save env "test" empty_world eq_refl).
Defined.

Lemma null_between_two_items :
  let env := catalog_of (JArr [podcast; JNull; song]) in
  iterated_items env "test" = Some [podcast; JNull; song] /\
  exists saved lines,
    fst (searchAndSave save env "test" empty_world) = Normal saved /\
    console (snd (searchAndSave save env "test" empty_world))
      = console empty_world ++ lines /\
    (length saved + length lines = length [podcast; JNull; song])%nat /\
    Forall (fun line => fst line = "Error saving individual result:") lines.
Proof.
  intros env. split; [reflexivity |].
  exact (every_item_is_saved_or_logged save env "test" [podcast; JNull; song] empty_world
           eq_refl).
Defined.

Example null_between_two_items_counts :
  let env := catalog_of (JArr [podcast; JNull; song]) in
  match searchAndSave save env "test" empty_world with
  | (Normal saved, w) => length saved = 2%nat /\ length (console w) = 1%nat
  | _ => False
  end.
Proof. vm_compute. split; reflexivity. Qed.

Lemma two_nulls_are_skipped :
  let env := catalog_of (JArr [JNull; JNull]) in
  let w := store_with [] [true] in
  iterated_items env "test" = Some [JNull; JNull] /\
  Forall (fun item => nullish item = true) [JNull; JNull] /\
  fst (searchAndSave save env "test" w) = Normal [] /\
  db (snd (searchAndSave save env "test" w)) = db w /\
  ticks (snd (searchAndSave save env "test" w)) = ticks w /\
  length (console (snd (searchAndSave save env "test" w)))
    = (length (console w) + length [JNull; JNull])%nat.
Proof.
  intros env w.
  assert (Hall : Forall (fun item => nullish item = true) [JNull; JNull])
    by (repeat constructor).
  split; [reflexivity | split; [exact Hall |]].
  exact (null_items_are_skipped save env "test" [JNull; JNull] w eq_refl Hall).
Defined.

Lemma bare_item_has_its_required_fields :
  let env := catalog_of (JArr [bare]) in
  nullish bare = false /\
  exists r w',
    make_searchResult env bare empty_world = (Normal r, w') /\
    (truthy (SearchResult.collectionName r) = true \/ SearchResult.collectionName r = JStr "") /\
    (truthy (SearchResult.collectionViewUrl r) = true
     \/ SearchResult.collectionViewUrl r = JStr "") /\
    (exists ms, SearchResult.searchDate r = JDate ms) /\
    (now env (ticks empty_world) <> 0 -> truthy (SearchResult.id r) = true).
Proof.
  intros env. split; [reflexivity |].
  exact (built_document_has_its_required_fields env bare empty_world eq_refl).
Defined.

Lemma call_keeps_ids_unique :
  let env := catalog_of (JArr [podcast; song; podcast]) in
  (forall st filter_id update,
     NoDup (ids st) -> NoDup (ids (snd (mem_findOneAndUpdate st filter_id update)))) /\
  NoDup (ids (db empty_world)) /\
  NoDup (ids (db (snd (searchAndSave save env "test" empty_world)))).
Proof.
  intros env.
  assert (Hkeep : forall st filter_id update,
            NoDup (ids st) -> NoDup (ids (snd (mem_findOneAndUpdate st filter_id update))))
    by exact mem_findOneAndUpdate_NoDup.
  assert (Hnd : NoDup (ids (db empty_world))) by constructor.
  split; [exact Hkeep | split; [exact Hnd |]].
  exact (call_keeps_store_invariant save (fun st => NoDup (ids st)) env "test" empty_world
           Hkeep Hnd).
Defined.

Lemma empty_word_is_refused_untouched :
  let env := catalog_of (JArr [podcast]) in
  params (search_request "") !! "searchWord" = Some "" /\
  search_route (searchAndSave save env) (search_request "") empty_world =
    (Normal {| statusCode := 400; body := error_body "searchWord parameter is required" |},
     empty_world).
Proof.
  intros env. split; [reflexivity |].
  apply (refused_request_changes_nothing (searchAndSave save env) (search_request "")
           empty_world).
  right. reflexivity.
Defined.

Lemma escaped_word_decodes_back :
  percent_decode (encodeURIComponent "rock & roll/50%") = Some "rock & roll/50%" /\
  (search_url "jazz" = search_url "jazz" -> "jazz" = "jazz").
Proof.
  destruct escaping_is_reversible as (Hdecode & Hcatalog & _).
  split; [apply Hdecode | apply Hcatalog].
Defined.

Lemma podcast_and_song_are_split :
  Forall (fun r => nullish r = false) [song; podcast; bare] /\
  exists ps os,
    podcasts [song; podcast; bare] = Normal ps /\
    otherResults [song; podcast; bare] = Normal os /\
    (length ps + length os = length [song; podcast; bare])%nat /\
    sublist ps [song; podcast; bare] /\ sublist os [song; podcast; bare] /\
    Forall (fun r => field r "kind" = JStr "podcast") ps /\
    Forall (fun r => field r "kind" <> JStr "podcast") os /\
    (forall r, r ∈ [song; podcast; bare] -> r ∈ ps \/ r ∈ os).
Proof.
  assert (Hall : Forall (fun r => nullish r = false) [song; podcast; bare])
    by (repeat constructor).
  split; [exact Hall |].
  exact (results_split_into_podcasts_and_others [song; podcast; bare] Hall).
Defined.

Example podcast_and_song_split_as :
  podcasts [song; podcast; bare] = Normal [podcast] /\
  otherResults [song; podcast; bare] = Normal [song; bare].
Proof. split; reflexivity. Qed.


Lemma blank_search_sends_nothing :
  let network := network_of (answered {| reply_status := 200;
                                         reply_json := Resolved (JArr []) |}) in
  ascii_trim "" = "" /\
  (searchAPI ascii_trim network "   " fresh_page = fresh_page \/
   ("   " <> "" /\
    Page.requests (searchAPI ascii_trim network "   " fresh_page)
      = Page.requests fresh_page ++ [request_url "   "] /\
    request_url "   " <> request_url "")).
Proof.
  intros network. split; [reflexivity |].
  exact (page_never_requests_an_empty_word ascii_trim network "   " fresh_page eq_refl).
Defined.

Lemma aborted_search_keeps_the_shown_results :
  let network :=
    network_of {| fetched := Rejected (ThrownError "AbortError" "The user aborted a request.");
                  aborted_after_fetch := true; aborted_after_json := true |} in
  truthy (JStr (ascii_trim "blues")) = true /\
  exchange_aborted (network (request_url "blues")) = true /\
  Page.results (searchAPI ascii_trim network "blues" shown_page) = Page.results shown_page /\
  Page.hasSearched (searchAPI ascii_trim network "blues" shown_page)
    = Page.hasSearched shown_page /\
  Page.loading (searchAPI ascii_trim network "blues" shown_page) = true.
Proof.
  intros network. split; [reflexivity | split; [reflexivity |]].
  exact (aborted_request_changes_no_result ascii_trim network "blues" shown_page
           eq_refl eq_refl).
Defined.

Lemma first_search_failing_shows_the_start_message :
  let network :=
    network_of (answered {| reply_status := 500;
                            reply_json := Resolved (error_body "Internal server error") |}) in
  truthy (JStr (ascii_trim "blues")) = true /\
  exchange_failed (network (request_url "blues")) = true /\
  let p' := searchAPI ascii_trim network "blues" fresh_page in
  Page.results p' = JArr [] /\ Page.loading p' = false /\
  Page.hasSearched p' = Page.hasSearched fresh_page /\
  panes p' = if Page.hasSearched fresh_page then [NoResults] else [DefaultMessage].
Proof.
  intros network. split; [reflexivity | split; [reflexivity |]].
  exact (failed_request_empties_results ascii_trim network "blues" fresh_page
           eq_refl eq_refl).
Defined.


Lemma clearing_the_box_resets_the_shown_page :
  let network := network_of (answered {| reply_status := 200;
                                         reply_json := Resolved (JArr []) |}) in
  let p' := handleSearchTermChange ascii_trim network "http://localhost:5173" "/" "  "
              shown_page in
  ("  " = "" \/ ascii_trim "  " = "") /\
  Page.searchTerm p' = "  " /\ Page.results p' = JArr [] /\
  Page.loading p' = false /\ Page.hasSearched p' = false /\
  Page.abortController p' = None /\
  Page.aborted p' = Page.aborted shown_page ++ option_list (Page.abortController shown_page) /\
  Page.requests p' = Page.requests shown_page /\
  Page.history p' = Page.history shown_page ++ [replaceState "http://localhost:5173/"] /\
  panes p' = [DefaultMessage].
Proof.
  intros network p'.
  assert (Hblank : "  " = "" \/ ascii_trim "  " = "") by (right; reflexivity).
  split; [exact Hblank |].
  exact (blank_word_resets_the_page ascii_trim network "http://localhost:5173" "/" "  "
           shown_page Hblank).
Defined.

Lemma typing_a_padded_word :
  let network := network_of (answered {| reply_status := 200;
                                         reply_json := Resolved (JArr []) |}) in
  let p' := handleSearchTermChange ascii_trim network "http://localhost:5173" "/" " a b "
              shown_page in
  ascii_trim " a b " = "a b" /\ ascii_trim (ascii_trim " a b ") = ascii_trim " a b " /\
  Page.searchTerm p' = " a b " /\
  Page.requests p' = Page.requests shown_page ++ ["http://localhost:3008/search/a%20b"] /\
  Page.history p' =
    Page.history shown_page ++ [replaceState "http://localhost:5173/?q=a%20b"] /\
  Page.aborted p' = Page.aborted shown_page ++ option_list (Page.abortController shown_page) /\
  Page.abortController p' = Some (Page.controllers shown_page).
Proof.
  intros network p'.
  assert (H1 : " a b " <> "") by discriminate.
  assert (H2 : ascii_trim " a b " <> "") by discriminate.
  split; [reflexivity | split; [reflexivity |]].
  exact (typed_word_is_requested_trimmed ascii_trim network "http://localhost:5173" "/" " a b "
           shown_page H1 H2 eq_refl).
Defined.

Lemma catalog_outage_shows_no_results :
  let env := answering 503 (Normal JNull) in
  let r := {| statusCode := 200; body := JArr [] |} in
  let network := network_of (answered (reply_of r)) in
  ascii_trim "" = "" /\
  truthy (JStr (ascii_trim "blues")) = true /\
  fst (get_search save env (search_request "blues") empty_world) = Normal r /\
  iterated_items env "blues" = None /\
  let p' := searchAPI ascii_trim network "blues" fresh_page in
  (exists docs, Page.results p' = JArr docs) /\
  Page.hasSearched p' = true /\ Page.loading p' = false /\
  (panes p' = [ResultList] \/ panes p' = [NoResults]) /\
  (iterated_items env "blues" = None -> panes p' = [NoResults]).
Proof.
  intros env r network.
  assert (Hr : fst (get_search save env (search_request "blues") empty_world) = Normal r)
    by reflexivity.
  split; [reflexivity | split; [reflexivity | split; [exact Hr | split; [reflexivity |]]]].
  exact (backend_answer_is_always_shown save ascii_trim network env empty_world "blues"
           fresh_page r eq_refl eq_refl Hr eq_refl).
Defined.

Lemma submitting_a_padded_word :
  let network := network_of (answered {| reply_status := 200;
                                         reply_json := Resolved (JArr []) |}) in
  let with_q := fun t => "http://localhost:5173/?q=" +:+ t in
  let p := Page.setSearchTerm " a b " fresh_page in
  let p' := handleSearch ascii_trim network "http:" "localhost:5173" "/" with_q p in
  truthy (JStr (ascii_trim (Page.searchTerm p))) = true /\ Page.searchTerm p <> "" /\
  Page.history p' = Page.history p ++ [pushState "http://localhost:5173/?q=a b"] /\
  Page.requests p' = Page.requests p ++ ["http://localhost:3008/search/%20a%20b%20"] /\
  Page.searchTerm p' = " a b ".
Proof.
  intros network with_q p p'.
  assert (Hne : Page.searchTerm p <> "") by discriminate.
  split; [reflexivity | split; [exact Hne |]].
  exact (proj2 (submitted_word_is_requested_as_typed ascii_trim network "http:"
                  "localhost:5173" "/" with_q p) eq_refl Hne).
Defined.

Lemma navigating_back_to_the_bare_address :
  let network := network_of (answered {| reply_status := 200;
                                         reply_json := Resolved (JArr []) |}) in
  let p' := handlePopState ascii_trim network None shown_page in
  truthy (JStr (ascii_trim "")) = false /\
  Page.history p' = Page.history shown_page /\
  Page.requests p' = Page.requests shown_page /\ Page.results p' = JArr [] /\
  Page.hasSearched p' = false /\ Page.loading p' = false /\ panes p' = [DefaultMessage].
Proof.
  intros network p'.
  destruct (navigation_never_writes_history ascii_trim network None shown_page)
    as (Hhist & _ & Hblank & _).
  split; [reflexivity | split; [exact Hhist |]].
  exact (Hblank eq_refl).
Defined.

End FurtherScenarios.
